(** * The t-closeness refinement loop of anjana

    A shallow embedding of [anjana/anonymity/_t_closeness.py] and the
    properties of its refinement loop.

    Python numbers ([t], [supp_level], the metric) are rationals with
    their total order, so a float that is not a number is outside the
    model; integers ([k], generalization levels) are [Z]; the cells of
    a table are strings and a table has one column per name.
    Python objects that the function shares with its caller or mutates
    in place (dataframes, the quasi-identifier sequences) live in a
    store addressed by locations; the generalization state is a local
    dictionary. The metric oracle of [pycanon], the enforcer
    [k_anonymity_inner] and the applier [utils.apply_hierarchy] are
    parameters of the development. A log records the calls to them
    and the messages printed. *)

From Stdlib Require Import QArith.
From stdpp Require Import gmap strings list fin_maps.
Close Scope Q_scope.

(** ** Python exceptions and results *)

Inductive exn :=
  | ValueError
  | KeyError
  | IndexError
  | AttributeError
  | TypeError
  | OtherError.

Global Instance exn_eq_dec : EqDecision exn.
Proof. solve_decision. Defined.

Inductive result (A : Type) :=
  | Ok (a : A)
  | Raise (e : exn).
Arguments Ok {A} a.
Arguments Raise {A} e.

(** ** Data model *)

(** A cell of a table. *)
Definition value := string.

(** A pandas dataframe: the length of its index and its named columns. *)
Record DataFrame := mkFrame {
  nrows : nat;
  columns : gmap string (list value)
}.

(** [pd.DataFrame()] *)
Definition empty_frame : DataFrame := mkFrame 0 ∅.

(** [df[c]]: a missing column raises [KeyError]. *)
Definition get_column (df : DataFrame) (c : string) : result (list value) :=
  match columns df !! c with
  | Some v => Ok v
  | None => Raise KeyError
  end.

(** [df[c] = v]: pandas refuses an array whose length differs from the
    index with a [ValueError]; otherwise the column is replaced and
    nothing else changes. *)
Definition set_column (df : DataFrame) (c : string) (v : list value)
  : result DataFrame :=
  if decide (length v = nrows df)
  then Ok (mkFrame (nrows df) (<[c:=v]> (columns df)))
  else Raise ValueError.

(** [len(np.unique(col))] *)
Definition nunique (col : list value) : nat := length (remove_dups col).

(** [np.argmax]: the first index holding the maximum. *)
Fixpoint argmax (l : list nat) : nat :=
  match l with
  | [] => 0
  | x :: r => if forallb (λ y, y <=? x) r then 0 else S (argmax r)
  end.

(** [typing.Union[typing.List, np.ndarray]]: both kinds of sequence are
    accepted for the identifier and quasi-identifier arguments. *)
Inductive seq_kind := PyList | NdArray.

Record pyseq := mkSeq {
  kind : seq_kind;
  items : list string
}.

(** Removal of the first occurrence, as [list.remove] does. *)
Fixpoint remove_first (x : string) (l : list string) : list string :=
  match l with
  | [] => []
  | y :: r => if decide (x = y) then r else y :: remove_first x r
  end.

(** [s.remove(x)]: only a Python list has the method; on a list an
    absent element raises [ValueError]. *)
Definition seq_remove (x : string) (s : pyseq) : result pyseq :=
  match kind s with
  | NdArray => Raise AttributeError
  | PyList =>
      if decide (x ∈ items s)
      then Ok (mkSeq PyList (remove_first x (items s)))
      else Raise ValueError
  end.

(** A hierarchy table: entry [i] is the column of level [i]; one row of
    the table is the chain of generalizations of a raw value. *)
Definition hierarchy := list (list value).

Definition max_level (h : hierarchy) : Z := Z.of_nat (length h) - 1.

(** ** The store and the monad of effects *)

Definition loc := positive.

(** What a run leaves behind besides the store: messages printed and the
    calls made to the collaborators. *)
Inductive event :=
  | EKAnon
  | EOracle (df : DataFrame) (qi : pyseq) (sens : list string)
  | EApply (qi : string) (level : Z)
  | EPrintVerified (t_real : Q)
  | EPrintInfeasible (t : Q).

Record world := mkWorld {
  frames : gmap loc DataFrame;
  seqs : gmap loc pyseq;
  log : list event
}.

Definition M (A : Type) : Type := world → result A * world.

Definition ret {A} (a : A) : M A := λ w, (Ok a, w).
Definition raise {A} (e : exn) : M A := λ w, (Raise e, w).
Definition bind {A B} (m : M A) (k : A → M B) : M B :=
  λ w, match m w with
       | (Ok a, w') => k a w'
       | (Raise e, w') => (Raise e, w')
       end.
Definition lift {A} (r : result A) : M A := λ w, (r, w).

Notation "'do' x <- m ; k" := (bind m (λ x, k))
  (at level 10, x name, m at level 100, k at level 200,
   format "'[v' 'do'  x  <-  m ; '/' k ']'").
Notation "m ;; k" := (bind m (λ _, k))
  (at level 100, k at level 200, right associativity).

(** [try: body except ValueError: handler]; what the body did to the
    store before it raised stays done. *)
Definition try_except_ValueError {A} (body handler : M A) : M A :=
  λ w, match body w with
       | (Raise ValueError, w') => handler w'
       | r => r
       end.

Definition emit (e : event) : M unit :=
  λ w, (Ok tt, mkWorld (frames w) (seqs w) (log w ++ [e])).

Definition read_frame (l : loc) : M DataFrame :=
  λ w, match frames w !! l with
       | Some d => (Ok d, w)
       | None => (Raise TypeError, w)
       end.

Definition read_seq (l : loc) : M pyseq :=
  λ w, match seqs w !! l with
       | Some s => (Ok s, w)
       | None => (Raise TypeError, w)
       end.

Definition write_frame (l : loc) (d : DataFrame) : M unit :=
  λ w, (Ok tt, mkWorld (<[l:=d]> (frames w)) (seqs w) (log w)).

Definition write_seq (l : loc) (s : pyseq) : M unit :=
  λ w, (Ok tt, mkWorld (frames w) (<[l:=s]> (seqs w)) (log w)).

(** A new object gets a location no live object has. *)
Definition new_frame (d : DataFrame) : M loc :=
  λ w, let l := fresh (dom (frames w)) in
       (Ok l, mkWorld (<[l:=d]> (frames w)) (seqs w) (log w)).

Definition new_seq (s : pyseq) : M loc :=
  λ w, let l := fresh (dom (seqs w)) in
       (Ok l, mkWorld (frames w) (<[l:=s]> (seqs w)) (log w)).

(** [copy(s)]: a shallow copy is a new object with the same items. *)
Definition copy (l : loc) : M loc :=
  do s <- read_seq l; new_seq s.

(** [d[key]] on a dict. *)
Definition dict_get {V} (d : gmap string V) (key : string) : result V :=
  match d !! key with
  | Some v => Ok v
  | None => Raise KeyError
  end.

(** Comparisons of Python numbers. *)
Definition Qlt_bool (a b : Q) : bool := negb (Qle_bool b a).
Definition Qgt_bool (a b : Q) : bool := Qlt_bool b a.

(** [[len(np.unique(df[qi])) for qi in cand]] *)
Fixpoint distinct_counts (df : DataFrame) (cand : list string)
  : result (list nat) :=
  match cand with
  | [] => Ok []
  | qi :: r =>
      match get_column df qi with
      | Raise e => Raise e
      | Ok col =>
          match distinct_counts df r with
          | Raise e => Raise e
          | Ok ns => Ok (nunique col :: ns)
          end
      end
  end.

(** [cand[np.argmax([len(np.unique(df[qi])) for qi in cand])]] *)
Definition select (df : DataFrame) (cand : list string) : result string :=
  match distinct_counts df cand with
  | Raise e => Raise e
  | Ok ns =>
      match cand !! argmax ns with
      | Some qi => Ok qi
      | None => Raise IndexError
      end
  end.

(** The number of distinct values of a column of a table, when the
    table has the column. *)
Definition distinct (df : DataFrame) (q : string) : option nat :=
  nunique <$> columns df !! q.

(** The number of calls to the metric oracle that a log records. *)
Fixpoint oracle_calls (l : list event) : nat :=
  match l with
  | [] => 0
  | EOracle _ _ _ :: r => S (oracle_calls r)
  | _ :: r => oracle_calls r
  end.

(** Table [df] is table [dk] with some of the columns named in [qi]
    replaced: as many rows, the same columns, the columns outside [qi]
    untouched, and every column as long as the index if that was so
    in [dk]. *)
Definition generalization_of (qi : list string) (dk df : DataFrame) : Prop :=
  nrows df = nrows dk ∧
  dom (columns df) = dom (columns dk) ∧
  (∀ c, c ∉ qi → columns df !! c = columns dk !! c) ∧
  ((∀ c col, columns dk !! c = Some col → length col = nrows dk) →
   ∀ c col, columns df !! c = Some col → length col = nrows df).

(** The attributes that a log records an attempt to generalize, in
    order. *)
Fixpoint applied (l : list event) : list string :=
  match l with
  | [] => []
  | EApply q _ :: r => q :: applied r
  | _ :: r => applied r
  end.

(** ** The function *)

(** The local variables of [t_closeness] that the loop reads and
    assigns. *)
Record locals := mkLocals {
  data_kanon : loc;
  gen_level : gmap string Z;
  quasi_ident_gen : loc;
  t_real : Q
}.

(** How a block of the function ends: it falls through with new locals
    or it executes a [return]. *)
Inductive ctl :=
  | Next (s : locals)
  | Return (l : loc).

Section Collaborators.

(** [pycanon.anonymity.t_closeness], the metric oracle. *)
Variable oracle : DataFrame → pyseq → list string → result Q.

(** [anjana.anonymity.k_anonymity_inner], the enforcer: it may do to
    the store whatever it likes and hands back the dataframe, the
    number of suppressed records and the generalization state. *)
Variable k_anonymity_inner :
  loc → loc → loc → Z → Q → gmap string hierarchy →
  M (loc * Z * gmap string Z).

(** [utils.apply_hierarchy], the generalization applier. *)
Variable apply_hierarchy : list value → hierarchy → Z → result (list value).

(** [pycanon.anonymity.t_closeness(data_kanon, quasi_ident, [sens_att])] *)
Definition call_oracle (data_kanon quasi_ident : loc) (sens_att : string)
  : M Q :=
  do dk <- read_frame data_kanon;
  do qi <- read_seq quasi_ident;
  emit (EOracle dk qi [sens_att]);;
  lift (oracle dk qi [sens_att]).

Section Loop.

Variable quasi_ident : loc.
Variable sens_att : string.
Variable t : Q.
Variable hierarchies : gmap string hierarchy.

(** Lines 94-102: the [try] block and its handler; the value is the
    generalization state afterwards. *)
Definition generalize (s : locals) (qi_gen : string)
  : M (gmap string Z) :=
  try_except_ValueError
    (do dk <- read_frame (data_kanon s);
     do col <- lift (get_column dk qi_gen);
     do h <- lift (dict_get hierarchies qi_gen);
     do lvl <- lift (dict_get (gen_level s) qi_gen);
     emit (EApply qi_gen (lvl + 1));;
     do generalization_qi <- lift (apply_hierarchy col h (lvl + 1));
     do dk' <- lift (set_column dk qi_gen generalization_qi);
     write_frame (data_kanon s) dk';;
     ret (<[qi_gen := (lvl + 1)%Z]> (gen_level s)))
    (do cand <- read_seq (quasi_ident_gen s);
     if decide (qi_gen ∈ items cand)
     then do cand' <- lift (seq_remove qi_gen cand);
          write_seq (quasi_ident_gen s) cand';;
          ret (gen_level s)
     else ret (gen_level s)).

(** Lines 94-106 with [qi_gen] chosen. *)
Definition after_select (s : locals) (qi_gen : string) : M ctl :=
  do gl <- generalize s qi_gen;
  do t_real' <- call_oracle (data_kanon s) quasi_ident sens_att;
  if Qle_bool t_real' t
  then ret (Return (data_kanon s))
  else ret (Next (mkLocals (data_kanon s) gl (quasi_ident_gen s) t_real')).

(** Lines 86-106: the body of the [while]. *)
Definition iteration (s : locals) : M ctl :=
  do cand <- read_seq (quasi_ident_gen s);
  if decide (length (items cand) = 0)
  then emit (EPrintInfeasible t);;
       do l <- new_frame empty_frame;
       ret (Return l)
  else do dk <- read_frame (data_kanon s);
       do qi_gen <- lift (select dk (items cand));
       after_select s qi_gen.

(** Lines 85-108: the [while]; [None] when the fuel runs out. *)
Fixpoint while_loop (fuel : nat) (s : locals) (w : world)
  : option (result loc * world) :=
  match fuel with
  | O => None
  | S n =>
      if Qgt_bool (t_real s) t
      then match iteration s w with
           | (Ok (Next s'), w') => while_loop n s' w'
           | (Ok (Return l), w') => Some (Ok l, w')
           | (Raise e, w') => Some (Raise e, w')
           end
      else Some (Ok (data_kanon s), w)
  end.

(** *** Vocabulary for the properties of the loop *)

(** The attempt to lift attribute [q] one level from level [lvl] fails
    with the [ValueError] that the handler catches. *)
Definition exhausted (dk : DataFrame) (q : string) (col : list value)
    (h : hierarchy) (lvl : Z) : Prop :=
  apply_hierarchy col h (lvl + 1) = Raise ValueError ∨
  ∃ g, apply_hierarchy col h (lvl + 1) = Ok g ∧
       set_column dk q g = Raise ValueError.

(** What lines 94-102 can do. *)
Inductive generalized (s : locals) (q : string) (w : world)
  : result (gmap string Z) → world → Prop :=
  | gen_up dk col h lvl g dk' :
      frames w !! data_kanon s = Some dk →
      columns dk !! q = Some col →
      hierarchies !! q = Some h →
      gen_level s !! q = Some lvl →
      apply_hierarchy col h (lvl + 1) = Ok g →
      set_column dk q g = Ok dk' →
      generalized s q w
        (Ok (<[q := (lvl + 1)%Z]> (gen_level s)))
        (mkWorld (<[data_kanon s := dk']> (frames w)) (seqs w)
                 (log w ++ [EApply q (lvl + 1)]))
  | gen_pruned dk col h lvl cand :
      frames w !! data_kanon s = Some dk →
      columns dk !! q = Some col →
      hierarchies !! q = Some h →
      gen_level s !! q = Some lvl →
      exhausted dk q col h lvl →
      seqs w !! quasi_ident_gen s = Some cand →
      kind cand = PyList →
      q ∈ items cand →
      generalized s q w
        (Ok (gen_level s))
        (mkWorld (frames w)
                 (<[quasi_ident_gen s :=
                      mkSeq PyList (remove_first q (items cand))]> (seqs w))
                 (log w ++ [EApply q (lvl + 1)]))
  | gen_kept dk col h lvl cand :
      frames w !! data_kanon s = Some dk →
      columns dk !! q = Some col →
      hierarchies !! q = Some h →
      gen_level s !! q = Some lvl →
      exhausted dk q col h lvl →
      seqs w !! quasi_ident_gen s = Some cand →
      q ∉ items cand →
      generalized s q w
        (Ok (gen_level s))
        (mkWorld (frames w) (seqs w) (log w ++ [EApply q (lvl + 1)]))
  | gen_raise e w' :
      frames w' = frames w →
      seqs w' = seqs w →
      generalized s q w (Raise e) w'.

(** What lines 86-106 can do. *)
Inductive iterated (s : locals) (w : world) : result ctl → world → Prop :=
  | it_infeasible cand :
      seqs w !! quasi_ident_gen s = Some cand →
      items cand = [] →
      iterated s w
        (Ok (Return (fresh (dom (frames w)))))
        (mkWorld (<[fresh (dom (frames w)) := empty_frame]> (frames w))
                 (seqs w) (log w ++ [EPrintInfeasible t]))
  | it_return cand dk q gl w1 dk1 qi m :
      seqs w !! quasi_ident_gen s = Some cand →
      items cand ≠ [] →
      frames w !! data_kanon s = Some dk →
      select dk (items cand) = Ok q →
      generalized s q w (Ok gl) w1 →
      frames w1 !! data_kanon s = Some dk1 →
      seqs w1 !! quasi_ident = Some qi →
      oracle dk1 qi [sens_att] = Ok m →
      Qle_bool m t = true →
      iterated s w
        (Ok (Return (data_kanon s)))
        (mkWorld (frames w1) (seqs w1)
                 (log w1 ++ [EOracle dk1 qi [sens_att]]))
  | it_next cand dk q gl w1 dk1 qi m :
      seqs w !! quasi_ident_gen s = Some cand →
      items cand ≠ [] →
      frames w !! data_kanon s = Some dk →
      select dk (items cand) = Ok q →
      generalized s q w (Ok gl) w1 →
      frames w1 !! data_kanon s = Some dk1 →
      seqs w1 !! quasi_ident = Some qi →
      oracle dk1 qi [sens_att] = Ok m →
      Qle_bool m t = false →
      iterated s w
        (Ok (Next (mkLocals (data_kanon s) gl (quasi_ident_gen s) m)))
        (mkWorld (frames w1) (seqs w1)
                 (log w1 ++ [EOracle dk1 qi [sens_att]]))
  | it_raise e w' :
      (∀ l, l ≠ quasi_ident_gen s → seqs w' !! l = seqs w !! l) →
      (∀ l, l ≠ data_kanon s → frames w' !! l = frames w !! l) →
      iterated s w (Raise e) w'.

(** One pass of the [while]: the test holds and the body falls through
    to the next test. *)
Definition step (c c' : locals * world) : Prop :=
  Qgt_bool (t_real c.1) t = true ∧
  iteration c.1 c.2 = (Ok (Next c'.1), c'.2).

(** The candidates that remain. *)
Definition candidates (s : locals) (w : world) : list string :=
  match seqs w !! quasi_ident_gen s with
  | Some cand => items cand
  | None => []
  end.

(** The levels that attribute [q] can still climb. *)
Definition room (gl : gmap string Z) (q : string) (h : hierarchy) : nat :=
  match gl !! q with
  | Some lvl => Z.to_nat (max_level h - lvl)
  | None => 0
  end.

(** The variant of the loop: candidates left plus levels left. *)
Definition measure (s : locals) (w : world) : nat :=
  length (candidates s w) +
  sum_list ((λ qh, room (gen_level s) qh.1 qh.2) <$> map_to_list hierarchies).

(** The applier succeeds only at levels that the hierarchy has: beyond
    the top level it fails. *)
Definition fails_beyond_top : Prop :=
  ∀ q h col lvl g,
    hierarchies !! q = Some h →
    apply_hierarchy col h lvl = Ok g →
    (lvl ≤ max_level h)%Z.

(** The oracle answers every question with a number. *)
Definition total_oracle : Prop :=
  ∀ df qi sens, ∃ m, oracle df qi sens = Ok m.

(** Exception [e] is one that the applier raises and the handler does
    not catch. *)
Definition applier_raises (e : exn) : Prop :=
  e ≠ ValueError ∧ ∃ col h lvl, apply_hierarchy col h lvl = Raise e.

(** All that a pass looks up is there: the candidates are a Python
    list, the caller's sequence is in the store, and every candidate
    has a column in the table, a hierarchy and a level. *)
Definition well_formed (s : locals) (w : world) : Prop :=
  (∃ cand, seqs w !! quasi_ident_gen s = Some cand ∧ kind cand = PyList) ∧
  is_Some (seqs w !! quasi_ident) ∧
  (∃ dk, frames w !! data_kanon s = Some dk ∧
         ∀ q, q ∈ candidates s w → is_Some (columns dk !! q)) ∧
  (∀ q, q ∈ candidates s w →
        is_Some (hierarchies !! q) ∧ is_Some (gen_level s !! q)).

(** [t_real] holds the metric of the table as it stands. *)
Definition recorded (s : locals) (w : world) : Prop :=
  ∃ dk qi,
    frames w !! data_kanon s = Some dk ∧
    seqs w !! quasi_ident = Some qi ∧
    oracle dk qi [sens_att] = Ok (t_real s).

End Loop.

(** Lines 71-83: everything before the [while]. *)
Definition prelude (data ident quasi_ident : loc) (sens_att : string)
    (k : Z) (t supp_level : Q) (hierarchies : gmap string hierarchy)
  : M ctl :=
  if Qlt_bool t 0 || Qgt_bool t 1
  then raise ValueError
  else
    emit EKAnon;;
    do r <- k_anonymity_inner data ident quasi_ident k supp_level hierarchies;
    let '(data_kanon, supp_records, gen_level) := r in
    do t_real <- call_oracle data_kanon quasi_ident sens_att;
    do quasi_ident_gen <- copy quasi_ident;
    if Qle_bool t_real t
    then emit (EPrintVerified t_real);; ret (Return data_kanon)
    else ret (Next (mkLocals data_kanon gen_level quasi_ident_gen t_real)).

(** What lines 71-83 can do. *)
Inductive preluded (data ident quasi_ident : loc) (sens_att : string)
    (k : Z) (t supp_level : Q) (hierarchies : gmap string hierarchy)
    (w : world) : result ctl → world → Prop :=
  | pre_invalid :
      Qlt_bool t 0 || Qgt_bool t 1 = true →
      preluded data ident quasi_ident sens_att k t supp_level hierarchies w
        (Raise ValueError) w
  | pre_enforcer_raise e w1 :
      Qlt_bool t 0 || Qgt_bool t 1 = false →
      k_anonymity_inner data ident quasi_ident k supp_level hierarchies
        (mkWorld (frames w) (seqs w) (log w ++ [EKAnon])) = (Raise e, w1) →
      preluded data ident quasi_ident sens_att k t supp_level hierarchies w
        (Raise e) w1
  | pre_oracle_raise dkl supp gl w1 e w2 :
      Qlt_bool t 0 || Qgt_bool t 1 = false →
      k_anonymity_inner data ident quasi_ident k supp_level hierarchies
        (mkWorld (frames w) (seqs w) (log w ++ [EKAnon]))
        = (Ok (dkl, supp, gl), w1) →
      frames w2 = frames w1 →
      seqs w2 = seqs w1 →
      preluded data ident quasi_ident sens_att k t supp_level hierarchies w
        (Raise e) w2
  | pre_verified dkl supp gl w1 dk qi m :
      Qlt_bool t 0 || Qgt_bool t 1 = false →
      k_anonymity_inner data ident quasi_ident k supp_level hierarchies
        (mkWorld (frames w) (seqs w) (log w ++ [EKAnon]))
        = (Ok (dkl, supp, gl), w1) →
      frames w1 !! dkl = Some dk →
      seqs w1 !! quasi_ident = Some qi →
      oracle dk qi [sens_att] = Ok m →
      Qle_bool m t = true →
      preluded data ident quasi_ident sens_att k t supp_level hierarchies w
        (Ok (Return dkl))
        (mkWorld (frames w1) (<[fresh (dom (seqs w1)) := qi]> (seqs w1))
                 (log w1 ++ [EOracle dk qi [sens_att]; EPrintVerified m]))
  | pre_enter dkl supp gl w1 dk qi m :
      Qlt_bool t 0 || Qgt_bool t 1 = false →
      k_anonymity_inner data ident quasi_ident k supp_level hierarchies
        (mkWorld (frames w) (seqs w) (log w ++ [EKAnon]))
        = (Ok (dkl, supp, gl), w1) →
      frames w1 !! dkl = Some dk →
      seqs w1 !! quasi_ident = Some qi →
      oracle dk qi [sens_att] = Ok m →
      Qle_bool m t = false →
      preluded data ident quasi_ident sens_att k t supp_level hierarchies w
        (Ok (Next (mkLocals dkl gl (fresh (dom (seqs w1))) m)))
        (mkWorld (frames w1) (<[fresh (dom (seqs w1)) := qi]> (seqs w1))
                 (log w1 ++ [EOracle dk qi [sens_att]])).

Definition t_closeness (fuel : nat) (data ident quasi_ident : loc)
    (sens_att : string) (k : Z) (t supp_level : Q)
    (hierarchies : gmap string hierarchy) (w : world)
  : option (result loc * world) :=
  match prelude data ident quasi_ident sens_att k t supp_level hierarchies w with
  | (Ok (Next s), w') => while_loop quasi_ident sens_att t hierarchies fuel s w'
  | (Ok (Return l), w') => Some (Ok l, w')
  | (Raise e, w') => Some (Raise e, w')
  end.

End Collaborators.

Arguments call_oracle oracle data_kanon quasi_ident sens_att w : assert.

(** The specification's sentence on an exhausted attribute, read at one
    pass of the loop from locals [s] and store [w]: when lifting the
    selected attribute fails for want of a level, the pass falls
    through with the attribute gone from the candidates and without a
    further call to the oracle. *)
Definition prunes_without_recomputing
    (oracle : DataFrame → pyseq → list string → result Q)
    (apply_hierarchy : list value → hierarchy → Z → result (list value))
    (quasi_ident : loc) (sens_att : string) (t : Q)
    (hierarchies : gmap string hierarchy) (s : locals) (w : world) : Prop :=
  ∀ cand dk q col h (lvl : Z),
    seqs w !! quasi_ident_gen s = Some cand →
    frames w !! data_kanon s = Some dk →
    select dk (items cand) = Ok q →
    columns dk !! q = Some col →
    hierarchies !! q = Some h →
    gen_level s !! q = Some lvl →
    apply_hierarchy col h (lvl + 1)%Z = Raise ValueError →
    ∃ s' w',
      iteration oracle apply_hierarchy quasi_ident sens_att t hierarchies s w
        = (Ok (Next s'), w') ∧
      (q ∉ candidates s' w') ∧
      oracle_calls (log w') = oracle_calls (log w).

(** ** Instances of the collaborators for running the model *)

(** The first row of a column that holds [v]. *)
Fixpoint index_of (v : value) (col : list value) : option nat :=
  match col with
  | [] => None
  | x :: r => if decide (v = x) then Some 0 else S <$> index_of v r
  end.

Fixpoint images (prev cur : list value) (values : list value)
  : result (list value) :=
  match values with
  | [] => Ok []
  | v :: r =>
      match index_of v prev ≫= (cur !!.) with
      | None => Raise IndexError
      | Some v' =>
          match images prev cur r with
          | Ok r' => Ok (v' :: r')
          | Raise e => Raise e
          end
      end
  end.

(** Modelled from the spec: [utils.apply_hierarchy] is not among the
    sources. Section 4.1: the result has the length of the input, each
    value replaced by its image at [level]; a level the hierarchy does
    not define is a domain error. Section 3: level [l] maps the value
    domain of level [l - 1], which is where the loop's column stands.
    The spec does not say what a value absent from the table does; here
    it raises [IndexError]. *)
Definition apply_hierarchy_spec (values : list value) (h : hierarchy)
    (level : Z) : result (list value) :=
  if decide (level < 0 ∨ max_level h < level)%Z then Raise ValueError
  else if decide (level = 0)%Z then Ok values
  else match h !! Z.to_nat (level - 1), h !! Z.to_nat level with
       | Some prev, Some cur => images prev cur values
       | _, _ => Raise ValueError
       end.

(** Modelled from the spec: [k_anonymity_inner] is not among the sources.
    This is section 4.2 on data whose classes all have size at least
    [k]: a new table equal to the input, nothing suppressed, every
    attribute with a hierarchy at level 0. *)
Definition enforcer_identity (data ident quasi_ident : loc) (k : Z)
    (supp_level : Q) (hierarchies : gmap string hierarchy)
  : M (loc * Z * gmap string Z) :=
  do d <- read_frame data;
  do l <- new_frame d;
  ret (l, 0%Z, (λ _, 0%Z) <$> hierarchies).

(** A stand-in for the metric oracle: the share of cells of the
    quasi-identifier columns that add a distinct value, a number in
    [0, 1] that is 0 once every such column holds one value. *)
Definition spread (df : DataFrame) (qi : list string) : nat :=
  sum_list ((λ q, match columns df !! q with
                  | Some col => nunique col - 1
                  | None => 0
                  end) <$> qi).

Definition oracle_spread (df : DataFrame) (qi : pyseq) (sens : list string)
  : result Q :=
  Ok (Qmake (Z.of_nat (spread df (items qi)))
             (Pos.of_nat (nrows df * length (items qi)))).

Module Hospital.

Definition table : DataFrame :=
  mkFrame 4 (list_to_map
    [("age", ["25"; "27"; "31"; "38"]);
     ("city", ["Kerala"; "Kerala"; "Delhi"; "Delhi"]);
     ("disease", ["Cancer"; "TB"; "Cancer"; "Flu"])]).

Definition age_hierarchy : hierarchy :=
  [["25"; "27"; "31"; "38"];
   ["[20, 30["; "[20, 30["; "[30, 40["; "[30, 40["];
   ["*"; "*"; "*"; "*"]].

Definition city_hierarchy : hierarchy :=
  [["Kerala"; "Kerala"; "Delhi"; "Delhi"]].

Definition hierarchies : gmap string hierarchy :=
  list_to_map [("age", age_hierarchy); ("city", city_hierarchy)].

Definition data : loc := 1%positive.
Definition ident : loc := 1%positive.
Definition quasi_ident : loc := 2%positive.

Definition start (k : seq_kind) : world :=
  mkWorld {[ data := table ]}
          (<[ quasi_ident := mkSeq k ["age"; "city"] ]>
             {[ ident := mkSeq PyList [] ]})
          [].

Definition run (k : seq_kind) (t : Q) (fuel : nat) :=
  t_closeness oracle_spread enforcer_identity apply_hierarchy_spec fuel
    data ident quasi_ident "disease" 2 t 0 hierarchies (start k).

(** The same call with the cities listed twice as quasi-identifiers. *)
Definition start_twice : world :=
  mkWorld {[ data := table ]}
          (<[ quasi_ident := mkSeq PyList ["city"; "city"] ]>
             {[ ident := mkSeq PyList [] ]})
          [].

Definition run_twice (t : Q) (fuel : nat) :=
  t_closeness oracle_spread enforcer_identity apply_hierarchy_spec fuel
    data ident quasi_ident "disease" 2 t 0 hierarchies start_twice.

(** The store as the enforcer leaves it. *)
Definition enforced (k : seq_kind) : world :=
  (enforcer_identity data ident quasi_ident 2 0%Q hierarchies
     (mkWorld (frames (start k)) (seqs (start k))
              (log (start k) ++ [EKAnon]))).2.

(** The locals and the store at the first test of the [while], and
    after each further pass. *)
Definition entry (k : seq_kind) (t : Q) : locals * world :=
  match prelude oracle_spread enforcer_identity data ident quasi_ident
          "disease" 2 t 0 hierarchies (start k) with
  | (Ok (Next s), w) => (s, w)
  | (_, w) => (mkLocals data ∅ quasi_ident t, w)
  end.

Definition advance (t : Q) (c : locals * world) : locals * world :=
  match iteration oracle_spread apply_hierarchy_spec quasi_ident "disease"
          t hierarchies c.1 c.2 with
  | (Ok (Next s), w) => (s, w)
  | _ => c
  end.

Definition pass (k : seq_kind) (t : Q) (n : nat) : locals * world :=
  Nat.iter n (advance t) (entry k t).

(** The run with a list of quasi-identifiers and target 0 after one
    pass: ages and cities both have two distinct values. *)
Definition s1 : locals := (pass PyList 0 1).1.
Definition w1 : world := (pass PyList 0 1).2.
Definition table1 : DataFrame :=
  default empty_frame (frames w1 !! data_kanon s1).

(** The run with a list of quasi-identifiers and target 0 after two
    passes: the ages are all ["*"], the cities are next and have no
    level above 0. *)
Definition s2 : locals := (pass PyList 0 2).1.
Definition w2 : world := (pass PyList 0 2).2.
Definition table2 : DataFrame :=
  default empty_frame (frames w2 !! data_kanon s2).

(** The store and the table that a run ends with. *)
Definition final_world (k : seq_kind) (t : Q) (fuel : nat) : world :=
  match run k t fuel with
  | Some (_, w) => w
  | None => start k
  end.

Definition final_table (k : seq_kind) (t : Q) (fuel : nat) (l : loc)
  : DataFrame :=
  default empty_frame (frames (final_world k t fuel) !! l).

End Hospital.


(** ** Further vocabulary *)


(** No level recorded for an attribute lies above the top of the
    attribute's hierarchy. *)
Definition levels_in_range (hierarchies : gmap string hierarchy)
    (gl : gmap string Z) : Prop :=
  ∀ q h lvl, hierarchies !! q = Some h → gl !! q = Some lvl →
             (lvl ≤ max_level h)%Z.

(** Hierarchies that know the ages only. *)
Definition hierarchies_age_only : gmap string hierarchy :=
  {[ "age" := Hospital.age_hierarchy ]}.

(** The hospital run with a numpy array of quasi-identifiers and target
    0 after two passes. *)
Definition s2_array : locals := (Hospital.pass NdArray 0 2).1.
Definition w2_array : world := (Hospital.pass NdArray 0 2).2.
(** * Properties *)

(** ** Selection of the attribute *)

Example argmax_first_of_ties : argmax [2; 3; 3; 1] = 1.
Proof. reflexivity. Qed.

Example select_most_distinct :
  select Hospital.table ["city"; "age"; "disease"] = Ok "age".
Proof. vm_compute. reflexivity. Qed.

Example select_missing_column :
  select Hospital.table ["age"; "zip"] = Raise KeyError.
Proof. vm_compute. reflexivity. Qed.

Example remove_first_occurrence :
  remove_first "b" ["a"; "b"; "c"; "b"] = ["a"; "c"; "b"].
Proof. reflexivity. Qed.

Example apply_decades :
  apply_hierarchy_spec ["27"; "38"; "25"] Hospital.age_hierarchy 1
  = Ok ["[20, 30["; "[30, 40["; "[20, 30["].
Proof. vm_compute. reflexivity. Qed.

Example apply_beyond_top :
  apply_hierarchy_spec ["Kerala"; "Delhi"] Hospital.city_hierarchy 1
  = Raise ValueError.
Proof. vm_compute. reflexivity. Qed.

Example set_column_wrong_length :
  set_column Hospital.table "age" ["*"] = Raise ValueError.
Proof. vm_compute. reflexivity. Qed.

Lemma argmax_lt (l : list nat) : l ≠ [] → argmax l < length l.
Proof.
  induction l as [|x r IH]; [done|]. intros _. simpl.
  destruct (forallb _ r) eqn:E; [lia|].
  destruct r as [|y r']; [discriminate|].
  specialize (IH ltac:(done)). simpl in *. lia.
Qed.

Lemma argmax_spec (l : list nat) (m : nat) :
  l !! argmax l = Some m →
  (∀ x, x ∈ l → x ≤ m) ∧
  (∀ j x, j < argmax l → l !! j = Some x → x < m).
Proof.
  revert m. induction l as [|x r IH]; intros m; [done|]. simpl.
  destruct (forallb _ r) eqn:E.
  - intros [= <-]. split; [|intros; lia].
    rewrite forallb_forall in E.
    intros y [->|Hy]%elem_of_cons; [lia|].
    apply list_elem_of_In, E, Nat.leb_le in Hy. lia.
  - simpl. intros Hm. destruct (IH _ Hm) as [Hmax Hfirst].
    assert (x < m) as Hx.
    { destruct (decide (x < m)) as [|Hge]; [done|].
      exfalso. apply not_true_iff_false in E. apply E.
      apply forallb_forall. intros y Hy%list_elem_of_In%Hmax.
      apply Nat.leb_le. lia. }
    split.
    + intros y [->|Hy]%elem_of_cons; [lia|by apply Hmax].
    + intros [|j] y Hj; simpl; [intros [= <-]; lia|].
      intros Hy. apply (Hfirst j); [lia|done].
Qed.

Lemma distinct_counts_spec df cand ns :
  distinct_counts df cand = Ok ns →
  Forall2 (λ q n, distinct df q = Some n) cand ns.
Proof.
  revert ns. induction cand as [|q r IH]; intros ns; simpl.
  - intros [= <-]. constructor.
  - unfold get_column, distinct. destruct (columns df !! q) eqn:Hq; [|done].
    destruct (distinct_counts df r) as [ns'|] eqn:Hr; [|done].
    intros [= <-]. constructor; [by rewrite Hq|by apply IH].
Qed.

Lemma select_spec df cand q :
  select df cand = Ok q →
  ∃ i n,
    cand !! i = Some q ∧ distinct df q = Some n ∧
    (∀ q', q' ∈ cand → ∃ n', distinct df q' = Some n' ∧ n' ≤ n) ∧
    (∀ j q', j < i → cand !! j = Some q' →
             ∃ n', distinct df q' = Some n' ∧ n' < n).
Proof.
  unfold select. destruct (distinct_counts df cand) as [ns|] eqn:Hns; [|done].
  apply distinct_counts_spec in Hns.
  destruct (cand !! argmax ns) as [q0|] eqn:Hq0; [|done]. intros [= ->].
  destruct (Forall2_lookup_l _ _ _ _ _ Hns Hq0) as (n & Hn & Hd).
  destruct (argmax_spec _ _ Hn) as [Hmax Hfirst].
  exists (argmax ns), n. repeat split; [done..| |].
  - intros q' (j & Hj)%list_elem_of_lookup.
    destruct (Forall2_lookup_l _ _ _ _ _ Hns Hj) as (n' & Hn' & Hd').
    exists n'. split; [done|]. apply Hmax. by eapply list_elem_of_lookup_2.
  - intros j q' Hlt Hj.
    destruct (Forall2_lookup_l _ _ _ _ _ Hns Hj) as (n' & Hn' & Hd').
    exists n'. split; [done|]. by eapply Hfirst.
Qed.

Lemma select_elem_of df cand q : select df cand = Ok q → q ∈ cand.
Proof.
  intros (i & n & Hi & _)%select_spec. by eapply list_elem_of_lookup_2.
Qed.

(** A table that has every candidate column lets the selection
    succeed. *)
Lemma select_total df cand :
  cand ≠ [] → (∀ q, q ∈ cand → is_Some (columns df !! q)) →
  ∃ q, select df cand = Ok q.
Proof.
  intros Hne Hcols. unfold select.
  assert (∃ ns, distinct_counts df cand = Ok ns ∧ length ns = length cand)
    as (ns & -> & Hlen).
  { clear Hne. induction cand as [|q r IH]; simpl; [by exists []|].
    unfold get_column.
    destruct (Hcols q ltac:(left)) as [col ->].
    destruct IH as (ns & -> & Hlen); [intros; apply Hcols; by right|].
    exists (nunique col :: ns). simpl. by rewrite Hlen. }
  assert (argmax ns < length cand) as Hlt.
  { rewrite <- Hlen. apply argmax_lt. by destruct ns, cand. }
  apply lookup_lt_is_Some_2 in Hlt as [q ->]. by exists q.
Qed.

(** ** The instances of the collaborators *)

Lemma apply_hierarchy_spec_bounded hs :
  fails_beyond_top apply_hierarchy_spec hs.
Proof.
  intros q h col lvl g _. unfold apply_hierarchy_spec.
  destruct (decide (lvl < 0 ∨ max_level h < lvl)%Z); [done|]. lia.
Qed.

Lemma oracle_spread_total : total_oracle oracle_spread.
Proof. intros df qi sens. by eexists. Qed.

(** ** One iteration of the loop, case by case *)

Section Properties.

Variable oracle : DataFrame → pyseq → list string → result Q.
Variable k_anonymity_inner :
  loc → loc → loc → Z → Q → gmap string hierarchy →
  M (loc * Z * gmap string Z).
Variable apply_hierarchy : list value → hierarchy → Z → result (list value).

Variable quasi_ident : loc.
Variable sens_att : string.
Variable t : Q.
Variable hierarchies : gmap string hierarchy.

Abbreviation generalize' := (generalize apply_hierarchy hierarchies).
Abbreviation after_select' :=
  (after_select oracle apply_hierarchy quasi_ident sens_att t hierarchies).
Abbreviation iteration' :=
  (iteration oracle apply_hierarchy quasi_ident sens_att t hierarchies).
Abbreviation while_loop' :=
  (while_loop oracle apply_hierarchy quasi_ident sens_att t hierarchies).
Abbreviation generalized' := (generalized apply_hierarchy hierarchies).
Abbreviation exhausted' := (exhausted apply_hierarchy).
Abbreviation iterated' :=
  (iterated oracle apply_hierarchy quasi_ident sens_att t hierarchies).
Abbreviation step' :=
  (step oracle apply_hierarchy quasi_ident sens_att t hierarchies).
Abbreviation measure' := (measure hierarchies).
Abbreviation recorded' := (recorded oracle quasi_ident sens_att).
Abbreviation fails_beyond_top' := (fails_beyond_top apply_hierarchy hierarchies).
Abbreviation total_oracle' := (total_oracle oracle).
Abbreviation applier_raises' := (applier_raises apply_hierarchy).
Abbreviation well_formed' := (well_formed quasi_ident hierarchies).

Lemma generalize_inv s q w r w' :
  generalize' s q w = (r, w') → generalized' s q w r w'.
Proof.
  unfold generalize, try_except_ValueError, bind, lift, read_frame,
    read_seq, emit, write_frame, write_seq, ret, get_column, dict_get,
    seq_remove.
  intros H.
  repeat (case_match; simplify_eq/=);
    try (by apply gen_raise);
    try (by eapply gen_up; eauto);
    try (by eapply gen_pruned; eauto; unfold exhausted; eauto);
    try (by eapply gen_kept; eauto; unfold exhausted; eauto).
Qed.

Lemma generalized_seqs s q w r w1 l :
  generalized' s q w r w1 →
  l ≠ quasi_ident_gen s → seqs w1 !! l = seqs w !! l.
Proof.
  inversion 1; subst; simpl; intros Hl; try done.
  - by rewrite lookup_insert_ne.
  - congruence.
Qed.

Lemma generalized_frames s q w r w1 l :
  generalized' s q w r w1 →
  l ≠ data_kanon s → frames w1 !! l = frames w !! l.
Proof.
  inversion 1; subst; simpl; intros Hl; try done.
  - by rewrite lookup_insert_ne.
  - congruence.
Qed.

Lemma after_select_inv s q w r w' :
  after_select' s q w = (r, w') →
  ((∃ e, r = Raise e) ∧
   (∀ l, l ≠ quasi_ident_gen s → seqs w' !! l = seqs w !! l) ∧
   (∀ l, l ≠ data_kanon s → frames w' !! l = frames w !! l)) ∨
  ∃ gl w1 dk1 qi m,
    generalized' s q w (Ok gl) w1 ∧
    frames w1 !! data_kanon s = Some dk1 ∧
    seqs w1 !! quasi_ident = Some qi ∧
    oracle dk1 qi [sens_att] = Ok m ∧
    w' = mkWorld (frames w1) (seqs w1)
                 (log w1 ++ [EOracle dk1 qi [sens_att]]) ∧
    r = Ok (if Qle_bool m t then Return (data_kanon s)
            else Next (mkLocals (data_kanon s) gl (quasi_ident_gen s) m)).
Proof.
  unfold after_select, bind at 1.
  destruct (generalize' s q w) as [[gl|e] w1] eqn:Hg; apply generalize_inv in Hg.
  2: { intros [= <- <-]. left. split; [by eexists|].
       split; intros l Hl;
         [by eapply generalized_seqs|by eapply generalized_frames]. }
  unfold call_oracle, bind, read_frame, read_seq, emit, lift, ret.
  intros H. repeat (case_match; simplify_eq/=).
  all: try (left; split; [by eexists|];
            split; intros l Hl;
              [by eapply generalized_seqs|by eapply generalized_frames]).
  all: right; eexists _, _, _, _, _; repeat split; eauto.
  all: match goal with H : Qle_bool _ _ = _ |- _ => by rewrite H end.
Qed.

Lemma iteration_inv s w r w' :
  iteration' s w = (r, w') → iterated' s w r w'.
Proof.
  unfold iteration, bind at 1, read_seq.
  destruct (seqs w !! quasi_ident_gen s) as [cand|] eqn:Hc;
    [|intros [= <- <-]; by constructor].
  destruct (decide (length (items cand) = 0)) as [Hlen|Hlen].
  { unfold bind, emit, new_frame, ret. simpl. intros [= <- <-].
    eapply it_infeasible; [done|]. by apply length_zero_iff_nil. }
  unfold bind at 1, read_frame.
  destruct (frames w !! data_kanon s) as [dk|] eqn:Hdk;
    [|intros [= <- <-]; by constructor].
  unfold bind at 1, lift.
  destruct (select dk (items cand)) as [q|e] eqn:Hq;
    [|intros [= <- <-]; by constructor].
  assert (items cand ≠ []) as Hne by (by destruct (items cand)).
  intros [([e ->] & Hs & Hf)
         |(gl & w1 & dk1 & qi & m & Hg & Hdk1 & Hqi & Hm & -> & ->)]
    %after_select_inv; [by constructor|].
  destruct (Qle_bool m t) eqn:Hle;
    [eapply it_return|eapply it_next]; eauto.
Qed.

Lemma prelude_inv data ident k supp_level w r w' :
  prelude oracle k_anonymity_inner data ident quasi_ident sens_att k t
    supp_level hierarchies w = (r, w') →
  preluded oracle k_anonymity_inner data ident quasi_ident sens_att k t
    supp_level hierarchies w r w'.
Proof.
  unfold prelude.
  destruct (Qlt_bool t 0 || Qgt_bool t 1) eqn:Hv.
  { intros [= <- <-]. by constructor. }
  unfold bind at 1, emit. unfold bind at 1.
  destruct (k_anonymity_inner _ _ _ _ _ _ _) as [[[[dkl supp] gl]|e] w1] eqn:Hk.
  2: { intros [= <- <-]. by eapply pre_enforcer_raise. }
  unfold call_oracle, copy, bind, read_frame, read_seq, emit, lift, ret,
    new_seq.
  intros H. repeat (case_match; simplify_eq/=).
  all: try (by eapply pre_oracle_raise; eauto).
  - rewrite <- app_assoc. simpl. eapply pre_verified; eauto.
  - eapply pre_enter; eauto.
Qed.

Lemma prelude_ok data ident k supp_level w dkl supp gl wk dk qi m :
  Qlt_bool t 0 || Qgt_bool t 1 = false →
  k_anonymity_inner data ident quasi_ident k supp_level hierarchies
    (mkWorld (frames w) (seqs w) (log w ++ [EKAnon]))
    = (Ok (dkl, supp, gl), wk) →
  frames wk !! dkl = Some dk →
  seqs wk !! quasi_ident = Some qi →
  oracle dk qi [sens_att] = Ok m →
  prelude oracle k_anonymity_inner data ident quasi_ident sens_att k t
    supp_level hierarchies w
  = (Ok (if Qle_bool m t then Return dkl
         else Next (mkLocals dkl gl (fresh (dom (seqs wk))) m)),
     mkWorld (frames wk) (<[fresh (dom (seqs wk)) := qi]> (seqs wk))
       (log wk ++ EOracle dk qi [sens_att]
                  :: if Qle_bool m t then [EPrintVerified m] else [])).
Proof.
  intros Hv Hk Hdk Hqi Hm. unfold prelude. rewrite Hv.
  unfold bind at 1, emit. unfold bind at 1. rewrite Hk.
  unfold call_oracle, copy, bind, read_frame, read_seq, emit, lift, ret,
    new_seq. simpl.
  rewrite Hdk, Hqi. simpl. rewrite Hm, Hqi. simpl.
  destruct (Qle_bool m t); simpl; [by rewrite <- app_assoc|done].
Qed.

(** ** Unfolding the loop *)

Lemma Qgt_bool_false (a b : Q) : Qgt_bool a b = false → (a <= b)%Q.
Proof.
  unfold Qgt_bool, Qlt_bool. intros H%negb_false_iff. by apply Qle_bool_iff.
Qed.

Lemma Qgt_bool_true (a b : Q) : Qgt_bool a b = true → (b < a)%Q.
Proof.
  unfold Qgt_bool, Qlt_bool. intros H%negb_true_iff.
  apply Qnot_le_lt. intros Hle%Qle_bool_iff. congruence.
Qed.

Lemma Qle_bool_false_gt (a b : Q) : Qle_bool a b = false → Qgt_bool a b = true.
Proof. unfold Qgt_bool, Qlt_bool. by intros ->. Qed.

Lemma while_loop_exit n s w :
  Qgt_bool (t_real s) t = false →
  while_loop' (S n) s w = Some (Ok (data_kanon s), w).
Proof. simpl. by intros ->. Qed.

Lemma while_loop_step n c c' :
  step' c c' → while_loop' (S n) c.1 c.2 = while_loop' n c'.1 c'.2.
Proof. intros [Hgt Hit]. simpl. by rewrite Hgt, Hit. Qed.

Lemma while_loop_nsteps k n c c' :
  nsteps step' k c c' →
  while_loop' (k + n) c.1 c.2 = while_loop' n c'.1 c'.2.
Proof.
  induction 1 as [|k c c1 c' Hs _ IH]; [done|].
  change (S k + n) with (S (k + n)). by rewrite (while_loop_step _ _ _ Hs).
Qed.

Lemma while_loop_mono n m s w r :
  while_loop' n s w = Some r → n ≤ m → while_loop' m s w = Some r.
Proof.
  revert m s w. induction n as [|n IH]; intros m s w; [done|].
  destruct m as [|m]; [lia|]. intros H Hle. simpl in *.
  destruct (Qgt_bool (t_real s) t); [|done].
  destruct (iteration' s w) as [[[s'|l]|e] w1]; [|done..].
  apply IH; [done|lia].
Qed.

(** ** Lists of candidates *)

Lemma remove_first_sublist x l : remove_first x l `sublist_of` l.
Proof.
  induction l as [|y r IH]; simpl; [constructor|].
  destruct (decide (x = y)); [by apply sublist_cons|by apply sublist_skip].
Qed.

Lemma remove_first_length x l :
  x ∈ l → S (length (remove_first x l)) = length l.
Proof.
  induction l as [|y r IH]; simpl; [by intros ?%elem_of_nil|].
  destruct (decide (x = y)) as [->|Hne]; [done|].
  intros [?|Hin]%elem_of_cons; [done|]. simpl. by rewrite IH.
Qed.

Lemma remove_first_NoDup x l : NoDup l → x ∉ remove_first x l.
Proof.
  induction l as [|y r IH]; simpl; [intros _ ?%elem_of_nil; done|].
  intros [Hy Hr]%NoDup_cons.
  destruct (decide (x = y)) as [->|Hne]; [done|].
  intros [?|Hin]%elem_of_cons; [done|]. by apply IH.
Qed.

Lemma oracle_calls_app l1 l2 :
  oracle_calls (l1 ++ l2) = oracle_calls l1 + oracle_calls l2.
Proof.
  induction l1 as [|e l1 IH]; [done|]. destruct e; simpl; by rewrite ?IH.
Qed.

(** ** What a pass leaves alone *)

Lemma generalized_candidates s q w gl w1 :
  generalized' s q w (Ok gl) w1 →
  candidates s w1 = candidates s w ∨
  (q ∈ candidates s w ∧ candidates s w1 = remove_first q (candidates s w)).
Proof.
  unfold candidates.
  inversion 1 as [| ? ? ? ? cand ? ? ? ? ? Hc ? Hin| |]; subst; simpl;
    [by left| |by left].
  right. by rewrite lookup_insert_eq, Hc.
Qed.

Lemma step_locs c c' :
  step' c c' →
  data_kanon c'.1 = data_kanon c.1 ∧
  quasi_ident_gen c'.1 = quasi_ident_gen c.1.
Proof.
  destruct c as [s w], c' as [s' w']. intros [_ Hit]. simpl in *.
  apply iteration_inv in Hit. by inversion Hit; subst.
Qed.

Lemma step_candidates c c' :
  step' c c' →
  candidates c'.1 c'.2 = candidates c.1 c.2 ∨
  ∃ q, q ∈ candidates c.1 c.2 ∧
       candidates c'.1 c'.2 = remove_first q (candidates c.1 c.2).
Proof.
  destruct c as [s w], c' as [s' w']. intros [_ Hit]. simpl in *.
  apply iteration_inv in Hit.
  inversion Hit as [| |cand dk q gl w1 dk1 qi m ? ? ? ? Hg| ]; subst.
  apply generalized_candidates in Hg as [Hg|[Hin Hg]]; [left|right; exists q];
    by unfold candidates in *.
Qed.

Lemma rtc_step_candidates c c' :
  rtc step' c c' → candidates c'.1 c'.2 `sublist_of` candidates c.1 c.2.
Proof.
  induction 1 as [|c c1 c' Hs _ IH]; [done|].
  etrans; [exact IH|].
  destruct (step_candidates _ _ Hs) as [->|(q & _ & ->)];
    [done|apply remove_first_sublist].
Qed.

Lemma iteration_selects s w cand dk q :
  seqs w !! quasi_ident_gen s = Some cand →
  frames w !! data_kanon s = Some dk →
  select dk (items cand) = Ok q →
  iteration' s w = after_select' s q w.
Proof.
  intros Hc Hdk Hsel. pose proof (select_elem_of _ _ _ Hsel) as Hin.
  unfold iteration, bind at 1, read_seq. rewrite Hc.
  rewrite decide_False
    by (destruct (items cand); [by apply elem_of_nil in Hin|done]).
  unfold bind at 1, read_frame. rewrite Hdk.
  unfold bind at 1, lift. by rewrite Hsel.
Qed.

Lemma select_nil df : select df [] = Raise IndexError.
Proof. done. Qed.

Lemma iteration_seqs_other s w r w' l :
  iteration' s w = (r, w') →
  l ≠ quasi_ident_gen s → seqs w' !! l = seqs w !! l.
Proof.
  intros Hit%iteration_inv Hl.
  inversion Hit as [|? ? ? ? ? ? ? ? ? ? ? ? Hg|? ? ? ? ? ? ? ? ? ? ? ? Hg
                   |? ? Hs]; subst; simpl;
    [done|by eapply generalized_seqs..|by apply Hs].
Qed.

Lemma while_loop_seqs_other n s w r w' l :
  while_loop' n s w = Some (r, w') →
  l ≠ quasi_ident_gen s → seqs w' !! l = seqs w !! l.
Proof.
  revert s w. induction n as [|n IH]; intros s w; [done|]. simpl.
  destruct (Qgt_bool (t_real s) t) eqn:Hgt; [|by intros [= <- <-]].
  destruct (iteration' s w) as [[[s'|l0]|e] w1] eqn:Hit.
  - intros Hloop Hl.
    destruct (step_locs (s, w) (s', w1)) as [_ Hlg]; [done|]. simpl in Hlg.
    rewrite (IH _ _ Hloop) by congruence. by eapply iteration_seqs_other.
  - intros [= <- <-]. by eapply iteration_seqs_other.
  - intros [= <- <-]. by eapply iteration_seqs_other.
Qed.

Lemma rtc_step_seqs_other c c' l :
  rtc step' c c' →
  l ≠ quasi_ident_gen c.1 →
  seqs c'.2 !! l = seqs c.2 !! l ∧ quasi_ident_gen c'.1 = quasi_ident_gen c.1.
Proof.
  induction 1 as [|c c1 c' Hs _ IH]; [done|]. intros Hl.
  destruct (step_locs _ _ Hs) as [_ Hlg].
  destruct IH as [-> ->]; [congruence|]. split; [|done].
  destruct Hs as [_ Hit]. by eapply iteration_seqs_other.
Qed.

Lemma generalized_levels s q w gl w1 :
  generalized' s q w (Ok gl) w1 →
  gl = gen_level s ∨
  ∃ lvl, gen_level s !! q = Some lvl ∧ gl = <[q := (lvl + 1)%Z]> (gen_level s).
Proof. inversion 1; subst; eauto. Qed.

Lemma select_first_max df cand q :
  select df cand = Ok q →
  ∃ i n,
    cand !! i = Some q ∧ distinct df q = Some n ∧
    (∀ q', q' ∈ cand → ∃ n', distinct df q' = Some n' ∧ n' ≤ n) ∧
    (∀ j q', cand !! j = Some q' → distinct df q' = Some n → i ≤ j).
Proof.
  intros (i & n & Hi & Hn & Hmax & Hfirst)%select_spec.
  exists i, n. split_and!; [done..|].
  intros j q' Hj Hq'. destruct (decide (i ≤ j)) as [|Hlt]; [done|].
  destruct (Hfirst j q') as (n' & Hn' & ?); [lia|done|].
  assert (n' = n) by congruence. lia.
Qed.

Lemma candidates_lookup s w q :
  q ∈ candidates s w →
  ∃ cand, seqs w !! quasi_ident_gen s = Some cand ∧ candidates s w = items cand.
Proof.
  unfold candidates. destruct (seqs w !! quasi_ident_gen s) as [cand|].
  - intros _. by exists cand.
  - by intros ?%elem_of_nil.
Qed.

Lemma fresh_seq_ne (m : gmap loc pyseq) l x :
  m !! l = Some x → l ≠ fresh (dom m).
Proof.
  intros Hl ->. apply (is_fresh (dom m)), elem_of_dom. by eexists.
Qed.

(** ** Tables under generalization *)

Lemma generalization_of_refl qi dk : generalization_of qi dk dk.
Proof. by unfold generalization_of. Qed.

Lemma generalization_of_set qi dk df q col g df' :
  generalization_of qi dk df →
  q ∈ qi →
  columns df !! q = Some col →
  set_column df q g = Ok df' →
  generalization_of qi dk df'.
Proof.
  intros (Hrows & Hdom & Hother & Hlen) Hq Hcol. unfold set_column.
  destruct (decide (length g = nrows df)) as [Hg|]; [|done].
  intros [= <-]. unfold generalization_of. simpl. split_and!.
  - done.
  - rewrite dom_insert_L, <- Hdom. apply subseteq_union_1_L.
    apply singleton_subseteq_l, elem_of_dom. by eexists.
  - intros c Hc. rewrite lookup_insert_ne; [by apply Hother|].
    by intros ->.
  - intros Hwf c col'. destruct (decide (c = q)) as [->|Hne].
    + rewrite lookup_insert_eq. by intros [= <-].
    + rewrite lookup_insert_ne by done. by apply Hlen.
Qed.

Lemma generalized_kept qi dk s q w gl w1 df :
  generalized' s q w (Ok gl) w1 →
  frames w !! data_kanon s = Some df →
  generalization_of qi dk df →
  q ∈ qi →
  ∃ df1, frames w1 !! data_kanon s = Some df1 ∧ generalization_of qi dk df1.
Proof.
  inversion 1 as [df0 col h lvl g df' Hdf0 Hcol ? ? ? Hset| | |]; subst; simpl;
    intros Hdf Hgen Hq; [|by exists df..].
  exists df'. rewrite lookup_insert_eq. split; [done|].
  assert (df0 = df) as -> by congruence.
  by eapply generalization_of_set.
Qed.

Lemma generalized_candidates_subseteq s q w gl w1 :
  generalized' s q w (Ok gl) w1 →
  candidates s w1 `sublist_of` candidates s w.
Proof.
  intros [->|[_ ->]]%generalized_candidates;
    [done|apply remove_first_sublist].
Qed.

(** ** The variant *)

Lemma sum_list_fmap_le {A} (f g : A → nat) (l : list A) :
  (∀ y, y ∈ l → f y ≤ g y) →
  sum_list (f <$> l) ≤ sum_list (g <$> l).
Proof.
  induction l as [|y r IH]; intros Hle; [done|]. rewrite !fmap_cons. simpl.
  pose proof (Hle y ltac:(left)).
  assert (sum_list (f <$> r) ≤ sum_list (g <$> r)); [|lia].
  apply IH. intros z Hz. apply Hle. by right.
Qed.

Lemma sum_list_fmap_lt {A} (f g : A → nat) (l : list A) x :
  (∀ y, y ∈ l → f y ≤ g y) → x ∈ l → f x < g x →
  sum_list (f <$> l) < sum_list (g <$> l).
Proof.
  intros Hle Hx Hlt. induction l as [|y r IH]; [by apply elem_of_nil in Hx|].
  rewrite !fmap_cons. simpl. apply elem_of_cons in Hx as [<-|Hx].
  - assert (sum_list (f <$> r) ≤ sum_list (g <$> r)); [|lia].
    apply sum_list_fmap_le. intros z Hz. apply Hle. by right.
  - pose proof (Hle y ltac:(left)).
    assert (sum_list (f <$> r) < sum_list (g <$> r)); [|lia].
    apply IH; [|done]. intros z Hz. apply Hle. by right.
Qed.

Lemma rooms_level_up (gl : gmap string Z) q h lvl :
  hierarchies !! q = Some h →
  gl !! q = Some lvl →
  (lvl + 1 ≤ max_level h)%Z →
  sum_list ((λ qh, room (<[q := (lvl + 1)%Z]> gl) qh.1 qh.2)
              <$> map_to_list hierarchies)
  < sum_list ((λ qh, room gl qh.1 qh.2) <$> map_to_list hierarchies).
Proof.
  intros Hh Hlvl Hle. apply (sum_list_fmap_lt _ _ _ (q, h)).
  - intros [q' h'] _. unfold room. simpl.
    destruct (decide (q' = q)) as [->|Hne].
    + rewrite lookup_insert_eq, Hlvl. lia.
    + by rewrite lookup_insert_ne.
  - by apply elem_of_map_to_list.
  - unfold room. simpl. rewrite lookup_insert_eq, Hlvl. lia.
Qed.

Lemma step_measure c c' :
  fails_beyond_top' →
  step' c c' →
  measure' c'.1 c'.2 < measure' c.1 c.2 ∧
  ((∃ q h lvl,
      hierarchies !! q = Some h ∧
      gen_level c.1 !! q = Some lvl ∧
      (lvl + 1 ≤ max_level h)%Z ∧
      gen_level c'.1 = <[q := (lvl + 1)%Z]> (gen_level c.1) ∧
      candidates c'.1 c'.2 = candidates c.1 c.2) ∨
   (gen_level c'.1 = gen_level c.1 ∧
    S (length (candidates c'.1 c'.2)) = length (candidates c.1 c.2))).
Proof.
  intros Htop. destruct c as [s w], c' as [s' w']. intros [_ Hit]. simpl in *.
  apply iteration_inv in Hit.
  inversion Hit as [| |cand dk q gl w1 dk1 qi m Hc ? Hdk Hsel Hg| ]; subst.
  pose proof (select_elem_of _ _ _ Hsel) as Hin.
  unfold measure, candidates. simpl.
  inversion Hg as [dk0 col h lvl g dk' ? ? Hh Hlvl Happ
                  |dk0 col h lvl cand0 ? ? ? ? ? Hc0
                  |dk0 col h lvl cand0 ? ? ? ? ? Hc0 Hnotin|]; subst; simpl.
  - pose proof (Htop _ _ _ _ _ Hh Happ) as Hle.
    pose proof (rooms_level_up (gen_level s) q h lvl Hh Hlvl Hle).
    split; [lia|]. left. by exists q, h, lvl.
  - rewrite lookup_insert_eq, Hc. simpl.
    assert (cand0 = cand) as -> by congruence.
    pose proof (remove_first_length _ _ Hin). split; [lia|]. by right.
  - assert (cand0 = cand) as -> by congruence. done.
Qed.

Lemma while_loop_terminates n s w :
  fails_beyond_top' →
  measure' s w < n →
  ∃ r w', while_loop' n s w = Some (r, w').
Proof.
  intros Htop. revert s w. induction n as [|n IH]; intros s w Hlt; [lia|].
  simpl. destruct (Qgt_bool (t_real s) t) eqn:Hgt; [|by eexists _, _].
  destruct (iteration' s w) as [[[s'|l]|e] w1] eqn:Hit;
    [|by eexists _, _..].
  apply IH.
  destruct (step_measure (s, w) (s', w1) Htop) as [Hm _]; [done|].
  simpl in Hm. lia.
Qed.

(** ** Passes that cannot raise *)

Lemma iteration_infeasible s w cand :
  seqs w !! quasi_ident_gen s = Some cand →
  items cand = [] →
  iteration' s w =
    (Ok (Return (fresh (dom (frames w)))),
     mkWorld (<[fresh (dom (frames w)) := empty_frame]> (frames w))
             (seqs w) (log w ++ [EPrintInfeasible t])).
Proof.
  intros Hc Hnil. unfold iteration, bind at 1, read_seq. rewrite Hc, Hnil.
  done.
Qed.


Lemma generalize_total s q w dk cand :
  frames w !! data_kanon s = Some dk →
  seqs w !! quasi_ident_gen s = Some cand →
  kind cand = PyList →
  is_Some (columns dk !! q) →
  is_Some (hierarchies !! q) →
  is_Some (gen_level s !! q) →
  (∃ gl w1, generalize' s q w = (Ok gl, w1)) ∨
  (∃ e w1, generalize' s q w = (Raise e, w1) ∧ applier_raises' e).
Proof.
  intros Hdk Hc Hk [col Hcol] [h Hh] [lvl Hlvl].
  unfold generalize, try_except_ValueError, bind, lift, read_frame, read_seq,
    emit, write_frame, write_seq, ret, get_column, dict_get, seq_remove.
  rewrite Hdk, Hcol, Hh, Hlvl. simpl.
  destruct (apply_hierarchy col h (lvl + 1)) as [g|e] eqn:Happ; simpl.
  - left. unfold set_column. destruct (decide (length g = nrows dk)); simpl;
      [by eexists _, _|].
    rewrite Hc, Hk. destruct (decide (q ∈ items cand)); simpl;
      by eexists _, _.
  - destruct (decide (e = ValueError)) as [->|Hne].
    + left. rewrite Hc, Hk.
      destruct (decide (q ∈ items cand)); simpl; by eexists _, _.
    + right. exists e. eexists. split; [by destruct e|].
      split; [done|]. by exists col, h, (lvl + 1)%Z.
Qed.

Lemma generalized_well_formed s q w gl w1 m :
  generalized' s q w (Ok gl) w1 →
  well_formed' s w →
  well_formed' (mkLocals (data_kanon s) gl (quasi_ident_gen s) m) w1.
Proof.
  intros Hg ((cand & Hc & Hk) & Hqi & (dk & Hdk & Hcols) & Hmaps).
  pose proof (generalized_candidates_subseteq _ _ _ _ _ Hg) as Hsub.
  assert (∀ q', q' ∈ candidates s w1 → q' ∈ candidates s w) as Hin.
  { intros q' Hq'. by eapply elem_of_sublist. }
  unfold well_formed. change (candidates (mkLocals _ _ _ _) w1)
    with (candidates s w1). simpl.
  inversion Hg as [dk0 col h lvl g dk' Hdk0 ? ? ? ? Hset
                  |dk0 col h lvl cand0 | |]; subst; simpl in *.
  - split_and!; [by exists cand|done| |].
    + exists dk'. rewrite lookup_insert_eq. split; [done|].
      intros q' Hq'. assert (dk0 = dk) as -> by congruence.
      unfold set_column in Hset. destruct (decide _); [|done].
      injection Hset as <-. simpl. apply lookup_insert_is_Some'.
      right. by apply Hcols, Hin.
    + intros q' Hq'. destruct (Hmaps q' (Hin _ Hq')) as [? ?].
      split; [done|]. apply lookup_insert_is_Some'. by right.
  - split_and!.
    + eexists. rewrite lookup_insert_eq. by split.
    + apply lookup_insert_is_Some'. by right.
    + exists dk. split; [done|]. intros q' Hq'. by apply Hcols, Hin.
    + intros q' Hq'. by apply Hmaps, Hin.
  - split_and!; [by exists cand|done| |].
    + exists dk. split; [done|]. intros q' Hq'. by apply Hcols, Hin.
    + intros q' Hq'. by apply Hmaps, Hin.
Qed.

Lemma iteration_progress s w :
  total_oracle' →
  well_formed' s w →
  (∃ c w', iteration' s w = (Ok c, w') ∧
           ∀ s', c = Next s' → well_formed' s' w') ∨
  (∃ e w', iteration' s w = (Raise e, w') ∧ applier_raises' e).
Proof.
  intros Horacle Hwf.
  pose proof Hwf as ((cand & Hc & Hk) & Hqi & (dk & Hdk & Hcols) & Hmaps).
  assert (candidates s w = items cand) as Hcand
    by (unfold candidates; by rewrite Hc).
  rewrite Hcand in Hcols, Hmaps.
  destruct (decide (items cand = [])) as [Hnil|Hne].
  { left. rewrite (iteration_infeasible _ _ _ Hc Hnil). by eexists _, _. }
  destruct (select_total dk (items cand) Hne Hcols) as [q Hsel].
  pose proof (select_elem_of _ _ _ Hsel) as Hin.
  rewrite (iteration_selects _ _ _ _ _ Hc Hdk Hsel).
  destruct (Hmaps q Hin) as [Hh Hlvl].
  unfold after_select, bind at 1. unfold bind at 2.
  destruct (generalize_total s q w dk cand Hdk Hc Hk (Hcols q Hin) Hh Hlvl)
    as [(gl & w1 & Hgen)|(e & w1 & Hgen & He)]; rewrite Hgen;
    [left|right; by eexists _, _].
  pose proof (generalize_inv _ _ _ _ _ Hgen) as Hg.
  pose proof (generalized_well_formed _ _ _ _ _ 0%Q Hg Hwf)
    as (_ & [qi Hqi1] & (dk1 & Hdk1 & _) & _). simpl in Hdk1.
  destruct (Horacle dk1 qi [sens_att]) as [m Hm].
  unfold call_oracle, bind, read_frame, read_seq, emit, lift, ret.
  rewrite Hdk1. simpl. rewrite Hqi1. simpl. rewrite Hm.
  destruct (Qle_bool m t); eexists _, _; (split; [done|]);
    intros s' [= <-].
  destruct (generalized_well_formed _ _ _ _ _ m Hg Hwf)
    as (H1 & H2 & H3 & H4).
  by split_and!.
Qed.

(** ** What a pass does to the table *)

Lemma step_table c c' df :
  step' c c' →
  frames c.2 !! data_kanon c.1 = Some df →
  ∃ df',
    frames c'.2 !! data_kanon c'.1 = Some df' ∧
    nrows df' = nrows df ∧
    (df' = df ∨
     ∃ q g, select df (candidates c.1 c.2) = Ok q ∧
            length g = nrows df ∧
            columns df' = <[q := g]> (columns df)).
Proof.
  destruct c as [s w], c' as [s' w']. intros [_ Hit] Hdf. simpl in *.
  apply iteration_inv in Hit.
  inversion Hit as [| |cand dk q gl w1 dk1 qi m Hc ? Hdk Hsel Hg Hdk1| ];
    subst; simpl.
  assert (dk = df) as -> by congruence.
  inversion Hg as [dk0 col h lvl g dk' Hdk0 ? ? ? ? Hset| | |]; subst;
    simpl in *.
  - rewrite lookup_insert_eq in Hdk1. injection Hdk1 as <-.
    assert (dk0 = df) as -> by congruence.
    unfold set_column in Hset.
    destruct (decide (length g = nrows df)) as [Hlen|]; [|done].
    injection Hset as <-. eexists. split; [by rewrite lookup_insert_eq|].
    split; [done|]. right. exists q, g. unfold candidates. by rewrite Hc.
  - exists df. rewrite Hdk. by eauto.
  - exists df. rewrite Hdk. by eauto.
Qed.

(** ** The result meets the target *)

Lemma step_recorded c c' : step' c c' → recorded' c'.1 c'.2.
Proof.
  destruct c as [s w], c' as [s' w']. intros [_ Hit]. simpl in *.
  apply iteration_inv in Hit.
  inversion Hit as [| |cand dk q gl w1 dk1 qi m ? ? ? ? ? Hdk1 Hqi Hm| ]; subst.
  by exists dk1, qi.
Qed.


Lemma entry_recorded data ident k supp_level w0 s0 w1 :
  prelude oracle k_anonymity_inner data ident quasi_ident sens_att k t
    supp_level hierarchies w0 = (Ok (Next s0), w1) →
  recorded' s0 w1.
Proof.
  intros Hpre%prelude_inv.
  inversion Hpre as [| | | |dkl supp gl w2 dk qi m Hv Hk Hdk Hqi Hm Hle];
    subst.
  exists dk, qi. simpl. split_and!; [done| |done].
  rewrite lookup_insert_ne; [done|].
  intros <-. apply (is_fresh (dom (seqs w2))), elem_of_dom. by eexists.
Qed.

Lemma reached_recorded data ident k supp_level w0 s0 w1 c :
  prelude oracle k_anonymity_inner data ident quasi_ident sens_att k t
    supp_level hierarchies w0 = (Ok (Next s0), w1) →
  rtc step' (s0, w1) c →
  recorded' c.1 c.2.
Proof.
  intros Hpre [<-|(c1 & _ & Hs)]%rtc_inv_r.
  - by eapply entry_recorded.
  - by eapply step_recorded.
Qed.


(** ** Validation of the target *)

(** C2. A target below 0 or above 1 makes [t_closeness] raise
    [ValueError] at once, whatever the fuel and whatever the enforcer
    would do: the store and the log are those of the call, so the
    enforcer was not called, nothing was generalized and the caller's
    data is as it was. *)
Theorem t_closeness_rejects_t fuel data ident k supp_level w :
  (t < 0 ∨ 1 < t)%Q →
  t_closeness oracle k_anonymity_inner apply_hierarchy fuel data ident
    quasi_ident sens_att k t supp_level hierarchies w
  = Some (Raise ValueError, w).
Proof.
  intros Ht. unfold t_closeness, prelude.
  assert (Qlt_bool t 0 || Qgt_bool t 1 = true) as ->; [|done].
  apply orb_true_iff. unfold Qgt_bool, Qlt_bool.
  destruct Ht as [Ht|Ht]; [left|right]; apply negb_true_iff;
    apply not_true_iff_false; intros Hle%Qle_bool_iff;
    by apply Qlt_not_le in Ht.
Qed.

(** ** Infeasibility *)

Lemma step_exceeds c c' : step' c c' → Qgt_bool (t_real c'.1) t = true.
Proof.
  destruct c as [s w], c' as [s' w']. intros [_ Hit]. simpl in *.
  apply iteration_inv in Hit.
  inversion Hit as [| |cand dk q gl w1 dk1 qi m ? ? ? ? ? ? ? ? Hle|]; subst.
  by apply Qle_bool_false_gt.
Qed.

Lemma entry_exceeds data ident k supp_level w0 s0 w1 :
  prelude oracle k_anonymity_inner data ident quasi_ident sens_att k t
    supp_level hierarchies w0 = (Ok (Next s0), w1) →
  Qgt_bool (t_real s0) t = true.
Proof.
  intros Hpre%prelude_inv. inversion Hpre; subst.
  by apply Qle_bool_false_gt.
Qed.

Lemma reached_exceeds data ident k supp_level w0 s0 w1 c :
  prelude oracle k_anonymity_inner data ident quasi_ident sens_att k t
    supp_level hierarchies w0 = (Ok (Next s0), w1) →
  rtc step' (s0, w1) c →
  Qgt_bool (t_real c.1) t = true.
Proof.
  intros Hpre [<-|(c1 & _ & Hs)]%rtc_inv_r.
  - by eapply entry_exceeds.
  - by eapply step_exceeds.
Qed.

(** C3. Once a run of the loop stands at the test of the [while] with no
    candidate left (the metric then still exceeds [t]), [t_closeness]
    returns a new, empty dataframe: no exception, and not the table it
    was generalizing, which stays in the store as it is. *)
Theorem infeasible_returns_empty data ident k supp_level w0 s0 w1 s w cand :
  prelude oracle k_anonymity_inner data ident quasi_ident sens_att k t
    supp_level hierarchies w0 = (Ok (Next s0), w1) →
  rtc step' (s0, w1) (s, w) →
  seqs w !! quasi_ident_gen s = Some cand →
  items cand = [] →
  Qgt_bool (t_real s) t = true ∧
  fresh (dom (frames w)) ≠ data_kanon s ∧
  ∃ n, ∀ fuel, n ≤ fuel →
    t_closeness oracle k_anonymity_inner apply_hierarchy fuel data ident
      quasi_ident sens_att k t supp_level hierarchies w0
    = Some (Ok (fresh (dom (frames w))),
            mkWorld (<[fresh (dom (frames w)) := empty_frame]> (frames w))
                    (seqs w) (log w ++ [EPrintInfeasible t])).
Proof.
  intros Hpre Hreach Hc Hnil.
  pose proof (reached_exceeds _ _ _ _ _ _ _ _ Hpre Hreach) as Hgt.
  simpl in Hgt. split; [done|].
  pose proof Hreach as [n Hn]%rtc_nsteps.
  split.
  - destruct (reached_recorded _ _ _ _ _ _ _ _ Hpre Hreach)
      as (dk & _ & Hdk & _).
    intros Heq. apply (is_fresh (dom (frames w))). rewrite Heq.
    apply elem_of_dom. by eexists.
  - exists (n + 1). intros fuel Hfuel. unfold t_closeness. rewrite Hpre.
    apply (while_loop_mono (n + 1)); [|done].
    rewrite (while_loop_nsteps _ _ _ _ Hn). simpl. rewrite Hgt.
    by rewrite (iteration_infeasible _ _ _ Hc Hnil).
Qed.

(** ** An attribute with no level left *)

Lemma generalize_exhausted s q w dk col h lvl cand :
  frames w !! data_kanon s = Some dk →
  columns dk !! q = Some col →
  hierarchies !! q = Some h →
  gen_level s !! q = Some lvl →
  exhausted' dk q col h lvl →
  seqs w !! quasi_ident_gen s = Some cand →
  kind cand = PyList →
  q ∈ items cand →
  generalize' s q w =
    (Ok (gen_level s),
     mkWorld (frames w)
             (<[quasi_ident_gen s :=
                  mkSeq PyList (remove_first q (items cand))]> (seqs w))
             (log w ++ [EApply q (lvl + 1)])).
Proof.
  intros Hdk Hcol Hh Hlvl Hex Hc Hk Hin.
  unfold generalize, try_except_ValueError, bind, lift, read_frame, read_seq,
    emit, write_frame, write_seq, ret, get_column, dict_get, seq_remove.
  rewrite Hdk, Hcol, Hh, Hlvl. simpl.
  destruct Hex as [->|(g & -> & ->)]; simpl; rewrite Hc, Hk;
    by rewrite !decide_True by done.
Qed.

(** C4, amended. When lifting the selected attribute fails for want of a
    level and the candidates are a Python list, the pass removes the
    attribute from the candidates, leaves the table and the levels as
    they are, calls the oracle once more on the unchanged table and
    falls through to the next test of the [while]; if the candidates
    held no duplicate, the attribute is in no later candidate list and
    so is never selected again. *)
Theorem exhausted_attribute_is_pruned s w cand dk qi q col h lvl :
  seqs w !! quasi_ident_gen s = Some cand →
  kind cand = PyList →
  frames w !! data_kanon s = Some dk →
  select dk (items cand) = Ok q →
  columns dk !! q = Some col →
  hierarchies !! q = Some h →
  gen_level s !! q = Some lvl →
  exhausted' dk q col h lvl →
  quasi_ident ≠ quasi_ident_gen s →
  seqs w !! quasi_ident = Some qi →
  oracle dk qi [sens_att] = Ok (t_real s) →
  Qgt_bool (t_real s) t = true →
  let s' := mkLocals (data_kanon s) (gen_level s) (quasi_ident_gen s)
                     (t_real s) in
  let w' := mkWorld (frames w)
              (<[quasi_ident_gen s :=
                   mkSeq PyList (remove_first q (items cand))]> (seqs w))
              (log w ++ [EApply q (lvl + 1); EOracle dk qi [sens_att]]) in
  step' (s, w) (s', w') ∧
  oracle_calls (log w') = S (oracle_calls (log w)) ∧
  (NoDup (items cand) →
   ∀ c, rtc step' (s', w') c →
        (q ∉ candidates c.1 c.2) ∧
        ∀ df, select df (candidates c.1 c.2) ≠ Ok q).
Proof.
  intros Hc Hk Hdk Hsel Hcol Hh Hlvl Hex Hne Hqi Hm Hgt s' w'.
  pose proof (select_elem_of _ _ _ Hsel) as Hin.
  split_and!.
  - split; [done|]. simpl.
    unfold iteration, bind at 1, read_seq. rewrite Hc.
    rewrite decide_False by (destruct (items cand); [by apply elem_of_nil in Hin|done]).
    unfold bind at 1, read_frame. rewrite Hdk.
    unfold bind at 1, lift. rewrite Hsel.
    unfold after_select, bind at 1.
    rewrite (generalize_exhausted _ _ _ _ _ _ _ _ Hdk Hcol Hh Hlvl Hex Hc Hk Hin).
    unfold call_oracle, bind, read_frame, read_seq, emit, lift, ret. simpl.
    rewrite Hdk. simpl. rewrite lookup_insert_ne by done.
    rewrite Hqi. simpl. rewrite Hm. simpl.
    apply Qgt_bool_true, Qlt_not_le in Hgt.
    destruct (Qle_bool (t_real s) t) eqn:Hle;
      [by apply Qle_bool_iff in Hle|].
    by rewrite <- app_assoc.
  - subst w'. simpl. rewrite oracle_calls_app. simpl. lia.
  - intros Hnd c Hreach.
    assert (q ∉ candidates c.1 c.2) as Hnotin.
    { intros Hq. apply (remove_first_NoDup q _ Hnd).
      eapply elem_of_sublist in Hq; [|by apply rtc_step_candidates].
      unfold candidates in Hq. simpl in Hq.
      by rewrite lookup_insert_eq in Hq. }
    split; [done|]. by intros df ?%select_elem_of.
Qed.

(** ** The attribute that a pass selects *)


(** ** Levels only go up *)

Lemma step_levels c c' :
  step' c c' →
  gen_level c'.1 = gen_level c.1 ∨
  ∃ dk q lvl,
    frames c.2 !! data_kanon c.1 = Some dk ∧
    select dk (candidates c.1 c.2) = Ok q ∧
    gen_level c.1 !! q = Some lvl ∧
    gen_level c'.1 = <[q := (lvl + 1)%Z]> (gen_level c.1).
Proof.
  destruct c as [s w], c' as [s' w']. intros [_ Hit]. simpl in *.
  apply iteration_inv in Hit.
  inversion Hit as [| |cand dk q gl w1 dk1 qi m Hc ? Hdk Hsel Hg| ]; subst.
  simpl. apply generalized_levels in Hg as [->|(lvl & Hlvl & ->)]; [by left|].
  right. exists dk, q, lvl. unfold candidates. by rewrite Hc.
Qed.

(** C6. The generalization state never goes down during the loop: the
    [try] block leaves it as it is or raises the level of the
    attribute it was given by exactly one; so does every pass, for the
    attribute it selected; and over any number of passes every level
    recorded stays recorded, at the same height or higher. *)
Theorem levels_never_decrease :
  (∀ s q w gl w',
     generalize' s q w = (Ok gl, w') →
     gl = gen_level s ∨
     ∃ lvl, gen_level s !! q = Some lvl ∧
            gl = <[q := (lvl + 1)%Z]> (gen_level s)) ∧
  (∀ c c',
     step' c c' →
     gen_level c'.1 = gen_level c.1 ∨
     ∃ dk q lvl,
       frames c.2 !! data_kanon c.1 = Some dk ∧
       select dk (candidates c.1 c.2) = Ok q ∧
       gen_level c.1 !! q = Some lvl ∧
       gen_level c'.1 = <[q := (lvl + 1)%Z]> (gen_level c.1)) ∧
  (∀ c c',
     rtc step' c c' →
     ∀ a lvl, gen_level c.1 !! a = Some lvl →
              ∃ lvl', gen_level c'.1 !! a = Some lvl' ∧ (lvl ≤ lvl')%Z).
Proof.
  split_and!.
  - intros s q w gl w' Hg%generalize_inv. by apply generalized_levels in Hg.
  - apply step_levels.
  - induction 1 as [c|c c1 c' Hs _ IH]; intros a lvl Ha; [by exists lvl|].
    destruct (step_levels _ _ Hs) as [Heq|(dk & q & l & _ & _ & Hq & Heq)].
    + apply IH. by rewrite Heq.
    + destruct (decide (a = q)) as [->|Hne].
      * destruct (IH q (l + 1)%Z) as (lvl' & ? & ?);
          [by rewrite Heq, lookup_insert_eq|].
        exists lvl'. split; [done|]. assert (l = lvl) by congruence. lia.
      * apply IH. by rewrite Heq, lookup_insert_ne.
Qed.

(** ** Nothing to do *)

(** C7. When the enforcer's table already has a metric of at most [t],
    [t_closeness] returns that very table: the dataframes in the store
    are as the enforcer left them, and after the enforcer's events the
    log has the one call to the oracle and the message, so no
    generalization was attempted. The fuel plays no part. *)
Theorem satisfied_at_once fuel data ident k supp_level w dkl supp gl w1 dk qi m :
  (0 <= t)%Q → (t <= 1)%Q →
  k_anonymity_inner data ident quasi_ident k supp_level hierarchies
    (mkWorld (frames w) (seqs w) (log w ++ [EKAnon]))
    = (Ok (dkl, supp, gl), w1) →
  frames w1 !! dkl = Some dk →
  seqs w1 !! quasi_ident = Some qi →
  oracle dk qi [sens_att] = Ok m →
  (m <= t)%Q →
  t_closeness oracle k_anonymity_inner apply_hierarchy fuel data ident
    quasi_ident sens_att k t supp_level hierarchies w
  = Some (Ok dkl,
          mkWorld (frames w1) (<[fresh (dom (seqs w1)) := qi]> (seqs w1))
                  (log w1 ++ [EOracle dk qi [sens_att]; EPrintVerified m])).
Proof.
  intros Ht0 Ht1 Hk Hdk Hqi Hm Hle. unfold t_closeness, prelude.
  assert (Qlt_bool t 0 || Qgt_bool t 1 = false) as ->.
  { apply orb_false_iff. unfold Qgt_bool, Qlt_bool.
    split; apply negb_false_iff; by apply Qle_bool_iff. }
  unfold bind at 1, emit. unfold bind at 1. rewrite Hk.
  unfold call_oracle, copy, bind, read_frame, read_seq, emit, lift, ret,
    new_seq. simpl.
  rewrite Hdk, Hqi. simpl. rewrite Hm, Hqi. simpl.
  apply Qle_bool_iff in Hle. rewrite Hle. simpl. by rewrite <- app_assoc.
Qed.

(** ** Ties, and the caller's list *)

(** C10. Suppose the enforcer returned and left [qi] as the caller's
    quasi-identifier sequence. Then whatever [t_closeness] goes on to
    do, that sequence is still [qi] when it ends. The loop starts with
    candidates in the order of [qi] and every later candidate list is
    a sub-list in that order; and the attribute a pass selects stands
    before every other candidate whose column has as many distinct
    values, none having more. *)
Theorem ties_go_to_the_first_candidate data ident k supp_level w0 dkl supp gl
    wk qi :
  Qlt_bool t 0 || Qgt_bool t 1 = false →
  k_anonymity_inner data ident quasi_ident k supp_level hierarchies
    (mkWorld (frames w0) (seqs w0) (log w0 ++ [EKAnon]))
    = (Ok (dkl, supp, gl), wk) →
  seqs wk !! quasi_ident = Some qi →
  (∀ fuel r w',
     t_closeness oracle k_anonymity_inner apply_hierarchy fuel data ident
       quasi_ident sens_att k t supp_level hierarchies w0 = Some (r, w') →
     seqs w' !! quasi_ident = Some qi) ∧
  (∀ s0 w1,
     prelude oracle k_anonymity_inner data ident quasi_ident sens_att k t
       supp_level hierarchies w0 = (Ok (Next s0), w1) →
     candidates s0 w1 = items qi ∧
     ∀ s w,
       rtc step' (s0, w1) (s, w) →
       seqs w !! quasi_ident = Some qi ∧
       candidates s w `sublist_of` items qi ∧
       ∀ dk q,
         frames w !! data_kanon s = Some dk →
         select dk (candidates s w) = Ok q →
         iteration' s w = after_select' s q w ∧
         ∃ i n,
           candidates s w !! i = Some q ∧
           distinct dk q = Some n ∧
           (∀ q', q' ∈ candidates s w →
                  ∃ n', distinct dk q' = Some n' ∧ n' ≤ n) ∧
           (∀ j q', candidates s w !! j = Some q' →
                    distinct dk q' = Some n → i ≤ j)).
Proof.
  intros Hv Hk Hqi.
  pose proof (fresh_seq_ne _ _ _ Hqi) as Hfresh.
  split.
  - intros fuel r w'. unfold t_closeness.
    destruct (prelude _ _ _ _ _ _ _ _ _ _ _) as [[[s|l0]|e] w1] eqn:Hpre;
      apply prelude_inv in Hpre.
    + inversion Hpre; subst; rewrite Hk in *; simplify_eq. intros Hloop.
      rewrite (while_loop_seqs_other _ _ _ _ _ quasi_ident Hloop) by done.
      simpl. by rewrite lookup_insert_ne.
    + intros [= <- <-]. inversion Hpre; subst; rewrite Hk in *; simplify_eq.
      simpl. by rewrite lookup_insert_ne.
    + intros [= <- <-].
      inversion Hpre; subst; try congruence; rewrite Hk in *; simplify_eq.
  - intros s0 w1 Hpre%prelude_inv.
    inversion Hpre; subst; rewrite Hk in *; simplify_eq.
    split; [unfold candidates; simpl; by rewrite lookup_insert_eq|].
    intros s w Hreach.
    destruct (rtc_step_seqs_other _ _ quasi_ident Hreach) as [Hs Hlg];
      [done|]. simpl in Hs, Hlg.
    pose proof (rtc_step_candidates _ _ Hreach) as Hsub. simpl in Hsub.
    unfold candidates at 2 in Hsub. simpl in Hsub.
    rewrite lookup_insert_eq in Hsub.
    split_and!.
    + rewrite Hs. by rewrite lookup_insert_ne.
    + done.
    + intros dk' q Hdk Hsel. split; [|by apply select_first_max].
      destruct (candidates_lookup s w q) as (cand & Hc & Heq);
        [by eapply select_elem_of|].
      rewrite Heq in Hsel. by eapply iteration_selects.
Qed.

(** ** What the loop leaves of the enforcer's table *)

Lemma while_loop_kept qi dk n s w l w' df df' :
  frames w !! data_kanon s = Some df →
  generalization_of qi dk df →
  (∀ q, q ∈ candidates s w → q ∈ qi) →
  while_loop' n s w = Some (Ok l, w') →
  frames w' !! l = Some df' →
  df' ≠ empty_frame →
  l = data_kanon s ∧ generalization_of qi dk df'.
Proof.
  revert s w df. induction n as [|n IH]; intros s w df Hdf Hgen Hsub; [done|].
  simpl. destruct (Qgt_bool (t_real s) t).
  2: { intros [= <- <-] Hdf' _. split; [done|]. congruence. }
  destruct (iteration' s w) as [[[s'|l0]|e] w1] eqn:Hit; [| |done];
    apply iteration_inv in Hit.
  - inversion Hit as [| |cand df0 q gl w2 dk1 qi0 m Hc ? Hdf0 Hsel Hg| ]; subst.
    assert (q ∈ qi) as Hq.
    { apply Hsub. unfold candidates. rewrite Hc. by eapply select_elem_of. }
    destruct (generalized_kept qi dk _ _ _ _ _ _ Hg Hdf Hgen Hq)
      as (df1 & Hdf1 & Hgen1).
    intros Hloop Hdf' Hne.
    refine (IH _ _ df1 _ Hgen1 _ Hloop Hdf' Hne); [exact Hdf1|].
    intros q' Hq'. change (q' ∈ candidates s w2) in Hq'.
    apply Hsub. eapply elem_of_sublist; [exact Hq'|].
    by eapply generalized_candidates_subseteq.
  - intros [= -> ->] Hdf' Hne.
    inversion Hit as [|cand df0 q gl w2 dk1 qi0 m Hc ? Hdf0 Hsel Hg| |]; subst;
      simpl in *.
    { rewrite lookup_insert_eq in Hdf'. congruence. }
    split; [done|].
    assert (q ∈ qi) as Hq.
    { apply Hsub. unfold candidates. rewrite Hc. by eapply select_elem_of. }
    destruct (generalized_kept qi dk _ _ _ _ _ _ Hg Hdf Hgen Hq)
      as (df1 & Hdf1 & Hgen1).
    congruence.
Qed.

(** C9. A pass of the loop that falls through leaves the table with as
    many rows as it had and either as it was or with the selected
    column replaced by a column as long as the index. And a table that
    [t_closeness] returns, unless it is the empty one, is the
    enforcer's table object, with as many rows and the same columns as
    when the enforcer returned it; every column outside the
    quasi-identifiers, the sensitive attribute among them when it is
    not a quasi-identifier, holds what it held then; and if every
    column was as long as the index, every column still is. *)
Theorem rows_and_other_columns_kept :
  (∀ c c' df,
     step' c c' →
     frames c.2 !! data_kanon c.1 = Some df →
     ∃ df',
       frames c'.2 !! data_kanon c'.1 = Some df' ∧
       nrows df' = nrows df ∧
       (df' = df ∨
        ∃ q g, select df (candidates c.1 c.2) = Ok q ∧
               length g = nrows df ∧
               columns df' = <[q := g]> (columns df))) ∧
  (∀ fuel data ident k supp_level w0 dkl supp gl wk dk qi l w' df,
     k_anonymity_inner data ident quasi_ident k supp_level hierarchies
       (mkWorld (frames w0) (seqs w0) (log w0 ++ [EKAnon]))
       = (Ok (dkl, supp, gl), wk) →
     frames wk !! dkl = Some dk →
     seqs wk !! quasi_ident = Some qi →
     t_closeness oracle k_anonymity_inner apply_hierarchy fuel data ident
       quasi_ident sens_att k t supp_level hierarchies w0 = Some (Ok l, w') →
     frames w' !! l = Some df →
     df ≠ empty_frame →
     l = dkl ∧
     nrows df = nrows dk ∧
     dom (columns df) = dom (columns dk) ∧
     (∀ c, c ∉ items qi → columns df !! c = columns dk !! c) ∧
     (sens_att ∉ items qi →
      columns df !! sens_att = columns dk !! sens_att) ∧
     ((∀ c col, columns dk !! c = Some col → length col = nrows dk) →
      ∀ c col, columns df !! c = Some col → length col = nrows df)).
Proof.
  split; [apply step_table|].
  intros fuel data ident k supp_level w0 dkl supp gl wk dk qi l w' df.
  intros Hk Hdk Hqi. unfold t_closeness.
  destruct (prelude _ _ _ _ _ _ _ _ _ _ _) as [[[s|l0]|e] w1] eqn:Hpre;
    [| |done]; apply prelude_inv in Hpre.
  - inversion Hpre as [| | | |? ? ? ? ? ? ? ? Hk']; subst.
    rewrite Hk in Hk'. injection Hk' as <- <- <- <-.
    intros Hloop Hdf Hne.
    assert (l = dkl ∧ generalization_of (items qi) dk df)
      as [-> (Hrows & Hdom & Hother & Hlen)].
    { refine (while_loop_kept (items qi) dk _ _ _ _ _ dk _ _
                (generalization_of_refl _ _) _ Hloop Hdf Hne); [exact Hdk|].
      unfold candidates. simpl. rewrite lookup_insert_eq. by simplify_eq. }
    split_and!; try done. apply Hother.
  - intros [= -> ->] Hdf Hne.
    inversion Hpre as [| | |? ? ? ? ? ? ? ? Hk'|]; subst.
    rewrite Hk in Hk'. injection Hk' as <- <- <- <-. simpl in *.
    assert (df = dk) as -> by congruence. done.
Qed.

(** ** Termination *)

Lemma while_loop_exit_modes n s w l w' :
  recorded' s w →
  while_loop' n s w = Some (Ok l, w') →
  (l = data_kanon s ∧
   ∃ dk qi m, frames w' !! l = Some dk ∧ seqs w' !! quasi_ident = Some qi ∧
              oracle dk qi [sens_att] = Ok m ∧ (m <= t)%Q) ∨
  (l ≠ data_kanon s ∧ frames w' !! l = Some empty_frame ∧
   candidates s w' = []).
Proof.
  revert s w. induction n as [|n IH]; intros s w Hrec; [done|]. simpl.
  destruct (Qgt_bool (t_real s) t) eqn:Hgt.
  2: { intros [= <- <-]. left. split; [done|].
       destruct Hrec as (dk & qi & ? & ? & ?). exists dk, qi, (t_real s).
       split_and!; [done..|]. by apply Qgt_bool_false. }
  destruct (iteration' s w) as [[[s'|l0]|e] w1] eqn:Hit; [| |done].
  - intros Hloop.
    destruct (step_locs (s, w) (s', w1)) as [Hld Hlg]; [done|].
    simpl in Hld, Hlg.
    destruct (IH _ _ (step_recorded (s, w) (s', w1) (conj Hgt Hit)) Hloop)
      as [[-> H]|(Hne & Hempty & Hcand)]; [left|right].
    + by split.
    + split_and!; [by rewrite <- Hld|done|].
      unfold candidates in *. by rewrite <- Hlg.
  - intros [= -> ->]. apply iteration_inv in Hit.
    inversion Hit as [cand Hc Hnil
                     |cand dk q gl w2 dk1 qi m ? ? ? ? ? Hdk1 Hqi Hm Hle| |];
      subst; simpl in *.
    + right. destruct Hrec as (dk & _ & Hdk & _). split_and!.
      * intros Heq. apply (is_fresh (dom (frames w))). rewrite Heq.
        apply elem_of_dom. by eexists.
      * by rewrite lookup_insert_eq.
      * unfold candidates. simpl. by rewrite Hc.
    + left. split; [done|]. exists dk1, qi, m.
      split_and!; [done..|]. by apply Qle_bool_iff.
Qed.

Lemma while_loop_no_raise n s w r w' :
  total_oracle' →
  well_formed' s w →
  while_loop' n s w = Some (r, w') →
  (∃ l, r = Ok l) ∨ (∃ e, r = Raise e ∧ applier_raises' e).
Proof.
  intros Horacle. revert s w.
  induction n as [|n IH]; intros s w Hwf; [done|]. simpl.
  destruct (Qgt_bool (t_real s) t); [|intros [= <- <-]; left; by eexists].
  destruct (iteration_progress s w Horacle Hwf)
    as [(c & w1 & -> & Hnext)|(e & w1 & -> & He)].
  - destruct c as [s'|l]; [|intros [= <- <-]; left; by eexists].
    apply IH. by apply Hnext.
  - intros [= <- <-]. right. by exists e.
Qed.

(** C8. If the applier succeeds only at levels that the hierarchy has,
    then every pass that falls through to the next test lowers the
    variant, candidates left plus levels left, by raising one level
    that had room or by dropping one candidate; so with fuel above a
    bound that the call fixes [t_closeness] gives a result, and a
    table it returns either has a metric of at most [t] or is the new
    empty table, returned with no candidate left. If moreover the
    oracle always answers, the quasi-identifiers are a Python list and
    each has a column, a hierarchy and a level, the result is a table,
    unless the applier raised an exception other than [ValueError],
    which then is the result. *)
Theorem t_closeness_terminates :
  fails_beyond_top' →
  (∀ c c',
     step' c c' →
     measure' c'.1 c'.2 < measure' c.1 c.2 ∧
     ((∃ q h lvl,
         hierarchies !! q = Some h ∧
         gen_level c.1 !! q = Some lvl ∧
         (lvl + 1 ≤ max_level h)%Z ∧
         gen_level c'.1 = <[q := (lvl + 1)%Z]> (gen_level c.1) ∧
         candidates c'.1 c'.2 = candidates c.1 c.2) ∨
      (gen_level c'.1 = gen_level c.1 ∧
       S (length (candidates c'.1 c'.2)) = length (candidates c.1 c.2)))) ∧
  (∀ data ident k supp_level w,
     ∃ n, ∀ fuel, n ≤ fuel →
       ∃ r w',
         t_closeness oracle k_anonymity_inner apply_hierarchy fuel data ident
           quasi_ident sens_att k t supp_level hierarchies w = Some (r, w') ∧
         ∀ l, r = Ok l →
           (∃ dk qi m,
              frames w' !! l = Some dk ∧ seqs w' !! quasi_ident = Some qi ∧
              oracle dk qi [sens_att] = Ok m ∧ (m <= t)%Q) ∨
           (frames w' !! l = Some empty_frame ∧
            ∃ s0 w1,
              prelude oracle k_anonymity_inner data ident quasi_ident
                sens_att k t supp_level hierarchies w = (Ok (Next s0), w1) ∧
              l ≠ data_kanon s0 ∧ candidates s0 w' = [])) ∧
  (∀ data ident k supp_level w dkl supp gl wk dk qi,
     total_oracle' →
     Qlt_bool t 0 || Qgt_bool t 1 = false →
     k_anonymity_inner data ident quasi_ident k supp_level hierarchies
       (mkWorld (frames w) (seqs w) (log w ++ [EKAnon]))
       = (Ok (dkl, supp, gl), wk) →
     frames wk !! dkl = Some dk →
     seqs wk !! quasi_ident = Some qi →
     kind qi = PyList →
     (∀ q, q ∈ items qi →
           is_Some (columns dk !! q) ∧ is_Some (hierarchies !! q) ∧
           is_Some (gl !! q)) →
     ∀ fuel r w',
       t_closeness oracle k_anonymity_inner apply_hierarchy fuel data ident
         quasi_ident sens_att k t supp_level hierarchies w = Some (r, w') →
       (∃ l, r = Ok l) ∨ (∃ e, r = Raise e ∧ applier_raises' e)).
Proof.
  intros Htop. split_and!.
  - intros c c'. by apply step_measure.
  - intros data ident k supp_level w. unfold t_closeness.
    destruct (prelude _ _ _ _ _ _ _ _ _ _ _) as [[[s|l0]|e] w1] eqn:Hpre.
    + exists (S (measure' s w1)). intros fuel Hfuel.
      destruct (while_loop_terminates fuel s w1 Htop) as (r & w' & Hloop);
        [lia|].
      exists r, w'. split; [done|]. intros l ->.
      destruct (while_loop_exit_modes _ _ _ _ _
                  (entry_recorded _ _ _ _ _ _ _ Hpre) Hloop)
        as [[-> H]|(Hne & Hempty & Hcand)]; [by left|right].
      split; [done|]. by exists s, w1.
    + exists 0. intros fuel _. exists (Ok l0), w1. split; [done|].
      intros l [= <-]. left. apply prelude_inv in Hpre.
      inversion Hpre as [| | |dkl supp gl w2 dk qi m ? ? Hdk Hqi Hm Hle|];
        subst; simpl.
      exists dk, qi, m. split_and!; [done| |done|by apply Qle_bool_iff].
      rewrite lookup_insert_ne; [done|]. symmetry. by eapply fresh_seq_ne.
    + exists 0. intros fuel _. by exists (Raise e), w1.
  - intros data ident k supp_level w dkl supp gl wk dk qi Horacle Hv Hk
      Hdk Hqi Hkind Hall fuel r w'. unfold t_closeness.
    destruct (Horacle dk qi [sens_att]) as [m Hm].
    rewrite (prelude_ok _ _ _ _ _ _ _ _ _ _ _ _ Hv Hk Hdk Hqi Hm).
    destruct (Qle_bool m t); [intros [= <- <-]; left; by eexists|].
    apply while_loop_no_raise; [done|].
    pose proof (fresh_seq_ne _ _ _ Hqi) as Hfresh.
    unfold well_formed, candidates. simpl.
    rewrite lookup_insert_eq, lookup_insert_ne by done.
    split_and!; [by exists qi|by eexists| |].
    + exists dk. split; [done|]. intros q Hq. by apply Hall.
    + intros q Hq. destruct (Hall q Hq) as (? & ? & ?). by split.
Qed.

End Properties.

(** ** The theorems at work on the hospital table *)


Lemma t_closeness_rejects_t_witness :
  (2 < 0 ∨ 1 < 2)%Q ∧
  Hospital.run NdArray 2%Q 0 = Some (Raise ValueError, Hospital.start NdArray).
Proof.
  assert (2 < 0 ∨ 1 < 2)%Q as H by (right; reflexivity).
  split; [exact H|].
  exact (t_closeness_rejects_t oracle_spread enforcer_identity
           apply_hierarchy_spec _ _ _ _ 0 _ _ _ _ _ H).
Defined.

Lemma hospital_pass (k : seq_kind) (n : nat) :
  Qgt_bool (t_real (Hospital.pass k 0%Q n).1) 0 = true →
  iteration oracle_spread apply_hierarchy_spec Hospital.quasi_ident "disease"
    0%Q Hospital.hierarchies (Hospital.pass k 0%Q n).1
    (Hospital.pass k 0%Q n).2
  = (Ok (Next (Hospital.pass k 0%Q (S n)).1), (Hospital.pass k 0%Q (S n)).2) →
  step oracle_spread apply_hierarchy_spec Hospital.quasi_ident "disease"
    0%Q Hospital.hierarchies
    ((Hospital.pass k 0%Q n).1, (Hospital.pass k 0%Q n).2)
    ((Hospital.pass k 0%Q (S n)).1, (Hospital.pass k 0%Q (S n)).2).
Proof. intros H1 H2. by split. Qed.

Lemma hospital_reach_4 :
  rtc (step oracle_spread apply_hierarchy_spec Hospital.quasi_ident "disease"
         0%Q Hospital.hierarchies)
    ((Hospital.entry PyList 0%Q).1, (Hospital.entry PyList 0%Q).2)
    ((Hospital.pass PyList 0%Q 4).1, (Hospital.pass PyList 0%Q 4).2).
Proof.
  eapply (rtc_l _ _ (_, _)); [apply (hospital_pass PyList 0); by vm_compute|].
  eapply (rtc_l _ _ (_, _)); [apply (hospital_pass PyList 1); by vm_compute|].
  eapply (rtc_l _ _ (_, _)); [apply (hospital_pass PyList 2); by vm_compute|].
  eapply (rtc_l _ _ (_, _)); [apply (hospital_pass PyList 3); by vm_compute|].
  apply rtc_refl.
Defined.

Lemma infeasible_returns_empty_witness :
  prelude oracle_spread enforcer_identity Hospital.data Hospital.ident
    Hospital.quasi_ident "disease" 2 0%Q 0%Q Hospital.hierarchies
    (Hospital.start PyList)
  = (Ok (Next (Hospital.entry PyList 0%Q).1), (Hospital.entry PyList 0%Q).2) ∧
  seqs (Hospital.pass PyList 0%Q 4).2
    !! quasi_ident_gen (Hospital.pass PyList 0%Q 4).1 = Some (mkSeq PyList []) ∧
  Qgt_bool (t_real (Hospital.pass PyList 0%Q 4).1) 0%Q = true ∧
  fresh (dom (frames (Hospital.pass PyList 0%Q 4).2))
    ≠ data_kanon (Hospital.pass PyList 0%Q 4).1 ∧
  ∃ n, ∀ fuel, n ≤ fuel →
    Hospital.run PyList 0%Q fuel
    = Some (Ok (fresh (dom (frames (Hospital.pass PyList 0%Q 4).2))),
            mkWorld (<[fresh (dom (frames (Hospital.pass PyList 0%Q 4).2))
                       := empty_frame]> (frames (Hospital.pass PyList 0%Q 4).2))
                    (seqs (Hospital.pass PyList 0%Q 4).2)
                    (log (Hospital.pass PyList 0%Q 4).2
                       ++ [EPrintInfeasible 0%Q])).
Proof.
  assert (prelude oracle_spread enforcer_identity Hospital.data Hospital.ident
    Hospital.quasi_ident "disease" 2 0%Q 0%Q Hospital.hierarchies
    (Hospital.start PyList)
  = (Ok (Next (Hospital.entry PyList 0%Q).1), (Hospital.entry PyList 0%Q).2))
    as H1 by (vm_compute; reflexivity).
  assert (seqs (Hospital.pass PyList 0%Q 4).2
    !! quasi_ident_gen (Hospital.pass PyList 0%Q 4).1 = Some (mkSeq PyList []))
    as H2 by (vm_compute; reflexivity).
  split; [exact H1|]. split; [exact H2|].
  exact (infeasible_returns_empty oracle_spread enforcer_identity
           apply_hierarchy_spec _ _ _ _ _ _ _ _ _ _ _ _ _ _
           H1 hospital_reach_4 H2 eq_refl).
Defined.

(** C4, as the specification words it, fails on the hospital table: in
    the pass that finds the cities without a further level, the oracle
    is called again before the pass ends. *)
Lemma exhausted_pass_recomputes :
  ¬ prunes_without_recomputing oracle_spread apply_hierarchy_spec
      Hospital.quasi_ident "disease" 0%Q Hospital.hierarchies
      Hospital.s2 Hospital.w2.
Proof.
  intros H.
  destruct (H (mkSeq PyList ["age"; "city"]) Hospital.table2 "city"
              ["Kerala"; "Kerala"; "Delhi"; "Delhi"] Hospital.city_hierarchy
              0%Z)
    as (s' & w' & Hit & _ & Hcalls); try (vm_compute; reflexivity).
  vm_compute in Hit. injection Hit as <- <-.
  vm_compute in Hcalls. discriminate.
Qed.

Lemma exhausted_attribute_is_pruned_witness :
  seqs Hospital.w2 !! quasi_ident_gen Hospital.s2
    = Some (mkSeq PyList ["age"; "city"]) ∧
  kind (mkSeq PyList ["age"; "city"]) = PyList ∧
  frames Hospital.w2 !! data_kanon Hospital.s2 = Some Hospital.table2 ∧
  select Hospital.table2 (items (mkSeq PyList ["age"; "city"])) = Ok "city" ∧
  columns Hospital.table2 !! "city"
    = Some ["Kerala"; "Kerala"; "Delhi"; "Delhi"] ∧
  Hospital.hierarchies !! "city" = Some Hospital.city_hierarchy ∧
  gen_level Hospital.s2 !! "city" = Some 0%Z ∧
  exhausted apply_hierarchy_spec Hospital.table2 "city"
    ["Kerala"; "Kerala"; "Delhi"; "Delhi"] Hospital.city_hierarchy 0 ∧
  Hospital.quasi_ident ≠ quasi_ident_gen Hospital.s2 ∧
  seqs Hospital.w2 !! Hospital.quasi_ident
    = Some (mkSeq PyList ["age"; "city"]) ∧
  oracle_spread Hospital.table2 (mkSeq PyList ["age"; "city"]) ["disease"]
    = Ok (t_real Hospital.s2) ∧
  Qgt_bool (t_real Hospital.s2) 0 = true ∧
  NoDup ["age"; "city"] ∧
  step oracle_spread apply_hierarchy_spec Hospital.quasi_ident "disease" 0%Q
    Hospital.hierarchies (Hospital.s2, Hospital.w2)
    (mkLocals (data_kanon Hospital.s2) (gen_level Hospital.s2)
       (quasi_ident_gen Hospital.s2) (t_real Hospital.s2),
     mkWorld (frames Hospital.w2)
       (<[quasi_ident_gen Hospital.s2 := mkSeq PyList ["age"]]>
          (seqs Hospital.w2))
       (log Hospital.w2
          ++ [EApply "city" 1;
              EOracle Hospital.table2 (mkSeq PyList ["age"; "city"])
                ["disease"]])).
Proof.
  assert (seqs Hospital.w2 !! quasi_ident_gen Hospital.s2
    = Some (mkSeq PyList ["age"; "city"])) as H1 by (vm_compute; reflexivity).
  assert (frames Hospital.w2 !! data_kanon Hospital.s2
    = Some Hospital.table2) as H3 by (vm_compute; reflexivity).
  assert (select Hospital.table2 (items (mkSeq PyList ["age"; "city"]))
    = Ok "city") as H4 by (vm_compute; reflexivity).
  assert (columns Hospital.table2 !! "city"
    = Some ["Kerala"; "Kerala"; "Delhi"; "Delhi"]) as H5
    by (vm_compute; reflexivity).
  assert (Hospital.hierarchies !! "city" = Some Hospital.city_hierarchy)
    as H6 by (vm_compute; reflexivity).
  assert (gen_level Hospital.s2 !! "city" = Some 0%Z) as H7
    by (vm_compute; reflexivity).
  assert (exhausted apply_hierarchy_spec Hospital.table2 "city"
    ["Kerala"; "Kerala"; "Delhi"; "Delhi"] Hospital.city_hierarchy 0) as H8
    by (left; vm_compute; reflexivity).
  assert (Hospital.quasi_ident ≠ quasi_ident_gen Hospital.s2) as H9
    by (vm_compute; discriminate).
  assert (seqs Hospital.w2 !! Hospital.quasi_ident
    = Some (mkSeq PyList ["age"; "city"])) as H10 by (vm_compute; reflexivity).
  assert (oracle_spread Hospital.table2 (mkSeq PyList ["age"; "city"])
    ["disease"] = Ok (t_real Hospital.s2)) as H11 by (vm_compute; reflexivity).
  assert (Qgt_bool (t_real Hospital.s2) 0 = true) as H12
    by (vm_compute; reflexivity).
  assert (NoDup ["age"; "city"]) as H13 by (by apply NoDup_ListNoDup; repeat constructor; simpl; intuition discriminate).
  split_and!;
    [exact H1|reflexivity|exact H3|exact H4|exact H5|exact H6|exact H7
    |exact H8|exact H9|exact H10|exact H11|exact H12|exact H13|].
  exact (proj1 (exhausted_attribute_is_pruned oracle_spread
                  apply_hierarchy_spec _ _ _ _ _ _ _ _ _ _ _ _ _
                  H1 eq_refl H3 H4 H5 H6 H7 H8 H9 H10 H11 H12)).
Defined.


Lemma levels_never_decrease_witness :
  rtc (step oracle_spread apply_hierarchy_spec Hospital.quasi_ident "disease"
         0%Q Hospital.hierarchies)
    ((Hospital.entry PyList 0%Q).1, (Hospital.entry PyList 0%Q).2)
    ((Hospital.pass PyList 0%Q 4).1, (Hospital.pass PyList 0%Q 4).2) ∧
  gen_level (Hospital.entry PyList 0%Q).1 !! "age" = Some 0%Z ∧
  ∃ lvl', gen_level (Hospital.pass PyList 0%Q 4).1 !! "age" = Some lvl' ∧
          (0 ≤ lvl')%Z.
Proof.
  assert (gen_level (Hospital.entry PyList 0%Q).1 !! "age" = Some 0%Z) as H
    by (vm_compute; reflexivity).
  split; [exact hospital_reach_4|]. split; [exact H|].
  exact (proj2 (proj2 (levels_never_decrease oracle_spread
                         apply_hierarchy_spec Hospital.quasi_ident "disease"
                         0%Q Hospital.hierarchies))
           _ _ hospital_reach_4 "age" 0%Z H).
Defined.

Lemma satisfied_at_once_witness :
  (0 <= 1)%Q ∧ (1 <= 1)%Q ∧
  enforcer_identity Hospital.data Hospital.ident Hospital.quasi_ident 2 0%Q
    Hospital.hierarchies
    (mkWorld (frames (Hospital.start PyList)) (seqs (Hospital.start PyList))
             (log (Hospital.start PyList) ++ [EKAnon]))
    = (Ok (2%positive, 0%Z, (λ _, 0%Z) <$> Hospital.hierarchies),
       Hospital.enforced PyList) ∧
  frames (Hospital.enforced PyList) !! 2%positive = Some Hospital.table ∧
  seqs (Hospital.enforced PyList) !! Hospital.quasi_ident
    = Some (mkSeq PyList ["age"; "city"]) ∧
  oracle_spread Hospital.table (mkSeq PyList ["age"; "city"]) ["disease"]
    = Ok (4 # 8)%Q ∧
  (4 # 8 <= 1)%Q ∧
  Hospital.run PyList 1%Q 0
  = Some (Ok 2%positive,
          mkWorld (frames (Hospital.enforced PyList))
            (<[fresh (dom (seqs (Hospital.enforced PyList)))
               := mkSeq PyList ["age"; "city"]]>
               (seqs (Hospital.enforced PyList)))
            (log (Hospital.enforced PyList)
               ++ [EOracle Hospital.table (mkSeq PyList ["age"; "city"])
                     ["disease"];
                   EPrintVerified (4 # 8)%Q])).
Proof.
  assert (0 <= 1)%Q as H1 by discriminate.
  assert (1 <= 1)%Q as H2 by discriminate.
  assert (enforcer_identity Hospital.data Hospital.ident Hospital.quasi_ident
    2 0%Q Hospital.hierarchies
    (mkWorld (frames (Hospital.start PyList)) (seqs (Hospital.start PyList))
             (log (Hospital.start PyList) ++ [EKAnon]))
    = (Ok (2%positive, 0%Z, (λ _, 0%Z) <$> Hospital.hierarchies),
       Hospital.enforced PyList)) as H3 by (vm_compute; reflexivity).
  assert (frames (Hospital.enforced PyList) !! 2%positive
    = Some Hospital.table) as H4 by (vm_compute; reflexivity).
  assert (seqs (Hospital.enforced PyList) !! Hospital.quasi_ident
    = Some (mkSeq PyList ["age"; "city"])) as H5 by (vm_compute; reflexivity).
  assert (oracle_spread Hospital.table (mkSeq PyList ["age"; "city"])
    ["disease"] = Ok (4 # 8)%Q) as H6 by (vm_compute; reflexivity).
  assert (4 # 8 <= 1)%Q as H7 by discriminate.
  split_and!; [exact H1|exact H2|exact H3|exact H4|exact H5|exact H6|exact H7|].
  exact (satisfied_at_once oracle_spread enforcer_identity apply_hierarchy_spec
           _ _ _ _ 0 _ _ _ _ _ _ _ _ _ _ _ _ H1 H2 H3 H4 H5 H6 H7).
Defined.

Lemma hospital_enforcer :
  enforcer_identity Hospital.data Hospital.ident Hospital.quasi_ident 2 0%Q
    Hospital.hierarchies
    (mkWorld (frames (Hospital.start PyList)) (seqs (Hospital.start PyList))
             (log (Hospital.start PyList) ++ [EKAnon]))
  = (Ok (2%positive, 0%Z, (λ _, 0%Z) <$> Hospital.hierarchies),
     Hospital.enforced PyList).
Proof. vm_compute. reflexivity. Qed.

Lemma hospital_prelude :
  prelude oracle_spread enforcer_identity Hospital.data Hospital.ident
    Hospital.quasi_ident "disease" 2 0%Q 0%Q Hospital.hierarchies
    (Hospital.start PyList)
  = (Ok (Next (Hospital.entry PyList 0%Q).1), (Hospital.entry PyList 0%Q).2).
Proof. vm_compute. reflexivity. Qed.

Lemma hospital_reach_1 :
  rtc (step oracle_spread apply_hierarchy_spec Hospital.quasi_ident "disease"
         0%Q Hospital.hierarchies)
    ((Hospital.entry PyList 0%Q).1, (Hospital.entry PyList 0%Q).2)
    (Hospital.s1, Hospital.w1).
Proof.
  eapply (rtc_l _ _ (_, _)); [apply (hospital_pass PyList 0); by vm_compute|].
  apply rtc_refl.
Qed.

Lemma t_closeness_terminates_witness :
  fails_beyond_top apply_hierarchy_spec Hospital.hierarchies ∧
  (∃ n, ∀ fuel, n ≤ fuel →
     ∃ r w',
       Hospital.run PyList 0%Q fuel = Some (r, w') ∧
       ∀ l, r = Ok l →
         (∃ dk qi m,
            frames w' !! l = Some dk ∧
            seqs w' !! Hospital.quasi_ident = Some qi ∧
            oracle_spread dk qi ["disease"] = Ok m ∧ (m <= 0)%Q) ∨
         (frames w' !! l = Some empty_frame ∧
          ∃ s0 w1,
            prelude oracle_spread enforcer_identity Hospital.data
              Hospital.ident Hospital.quasi_ident "disease" 2 0%Q 0%Q
              Hospital.hierarchies (Hospital.start PyList)
              = (Ok (Next s0), w1) ∧
            l ≠ data_kanon s0 ∧ candidates s0 w' = [])) ∧
  (∀ fuel r w',
     Hospital.run PyList 0%Q fuel = Some (r, w') →
     (∃ l, r = Ok l) ∨
     (∃ e, r = Raise e ∧ applier_raises apply_hierarchy_spec e)).
Proof.
  pose proof (apply_hierarchy_spec_bounded Hospital.hierarchies) as Htop.
  destruct (t_closeness_terminates oracle_spread enforcer_identity
              apply_hierarchy_spec Hospital.quasi_ident "disease" 0%Q
              Hospital.hierarchies Htop) as (_ & Hends & Hok).
  split; [exact Htop|]. split.
  - exact (Hends Hospital.data Hospital.ident 2%Z 0%Q (Hospital.start PyList)).
  - refine (Hok Hospital.data Hospital.ident 2%Z 0%Q (Hospital.start PyList)
              _ _ _ _ Hospital.table (mkSeq PyList ["age"; "city"])
              oracle_spread_total eq_refl hospital_enforcer _ _ eq_refl _).
    + vm_compute. reflexivity.
    + vm_compute. reflexivity.
    + intros q [->|[->|[]%elem_of_nil]%elem_of_cons]%elem_of_cons;
        vm_compute; split_and!; by eexists.
Defined.

Lemma rows_and_other_columns_kept_witness :
  enforcer_identity Hospital.data Hospital.ident Hospital.quasi_ident 2 0%Q
    Hospital.hierarchies
    (mkWorld (frames (Hospital.start PyList)) (seqs (Hospital.start PyList))
             (log (Hospital.start PyList) ++ [EKAnon]))
  = (Ok (2%positive, 0%Z, (λ _, 0%Z) <$> Hospital.hierarchies),
     Hospital.enforced PyList) ∧
  frames (Hospital.enforced PyList) !! 2%positive = Some Hospital.table ∧
  seqs (Hospital.enforced PyList) !! Hospital.quasi_ident
    = Some (mkSeq PyList ["age"; "city"]) ∧
  Hospital.run PyList (1 # 8)%Q 10
    = Some (Ok 2%positive, Hospital.final_world PyList (1 # 8)%Q 10) ∧
  frames (Hospital.final_world PyList (1 # 8)%Q 10) !! 2%positive
    = Some (Hospital.final_table PyList (1 # 8)%Q 10 2%positive) ∧
  Hospital.final_table PyList (1 # 8)%Q 10 2%positive ≠ empty_frame ∧
  columns (Hospital.final_table PyList (1 # 8)%Q 10 2%positive) !! "age"
    = Some ["*"; "*"; "*"; "*"] ∧
  nrows (Hospital.final_table PyList (1 # 8)%Q 10 2%positive) = 4 ∧
  columns (Hospital.final_table PyList (1 # 8)%Q 10 2%positive) !! "disease"
    = columns Hospital.table !! "disease".
Proof.
  assert (frames (Hospital.enforced PyList) !! 2%positive
    = Some Hospital.table) as H2 by (vm_compute; reflexivity).
  assert (seqs (Hospital.enforced PyList) !! Hospital.quasi_ident
    = Some (mkSeq PyList ["age"; "city"])) as H3 by (vm_compute; reflexivity).
  assert (Hospital.run PyList (1 # 8)%Q 10
    = Some (Ok 2%positive, Hospital.final_world PyList (1 # 8)%Q 10)) as H4
    by (vm_compute; reflexivity).
  assert (frames (Hospital.final_world PyList (1 # 8)%Q 10) !! 2%positive
    = Some (Hospital.final_table PyList (1 # 8)%Q 10 2%positive)) as H5
    by (vm_compute; reflexivity).
  assert (Hospital.final_table PyList (1 # 8)%Q 10 2%positive ≠ empty_frame)
    as H6 by (vm_compute; discriminate).
  assert ("disease" ∉ items (mkSeq PyList ["age"; "city"])) as H7.
  { intros [?|[?|[]%elem_of_nil]%elem_of_cons]%elem_of_cons; discriminate. }
  destruct (proj2 (rows_and_other_columns_kept oracle_spread
                     enforcer_identity apply_hierarchy_spec
                     Hospital.quasi_ident "disease" (1 # 8)%Q
                     Hospital.hierarchies)
              _ _ _ _ _ _ _ _ _ _ _ _ _ _ _
              hospital_enforcer H2 H3 H4 H5 H6)
    as (_ & Hrows & _ & _ & Hsens & _).
  split_and!; [exact hospital_enforcer|exact H2|exact H3|exact H4|exact H5
              |exact H6|by vm_compute|exact Hrows|exact (Hsens H7)].
Defined.

Lemma ties_go_to_the_first_candidate_witness :
  Qlt_bool 0 0 || Qgt_bool 0 1 = false ∧
  enforcer_identity Hospital.data Hospital.ident Hospital.quasi_ident 2 0%Q
    Hospital.hierarchies
    (mkWorld (frames (Hospital.start PyList)) (seqs (Hospital.start PyList))
             (log (Hospital.start PyList) ++ [EKAnon]))
  = (Ok (2%positive, 0%Z, (λ _, 0%Z) <$> Hospital.hierarchies),
     Hospital.enforced PyList) ∧
  seqs (Hospital.enforced PyList) !! Hospital.quasi_ident
    = Some (mkSeq PyList ["age"; "city"]) ∧
  distinct Hospital.table1 "age" = Some 2 ∧
  distinct Hospital.table1 "city" = Some 2 ∧
  candidates Hospital.s1 Hospital.w1 = ["age"; "city"] ∧
  select Hospital.table1 (candidates Hospital.s1 Hospital.w1) = Ok "age" ∧
  (∀ fuel r w',
     Hospital.run PyList 0%Q fuel = Some (r, w') →
     seqs w' !! Hospital.quasi_ident = Some (mkSeq PyList ["age"; "city"])) ∧
  ∃ i n,
    candidates Hospital.s1 Hospital.w1 !! i = Some "age" ∧
    distinct Hospital.table1 "age" = Some n ∧
    (∀ q', q' ∈ candidates Hospital.s1 Hospital.w1 →
           ∃ n', distinct Hospital.table1 q' = Some n' ∧ n' ≤ n) ∧
    (∀ j q', candidates Hospital.s1 Hospital.w1 !! j = Some q' →
             distinct Hospital.table1 q' = Some n → i ≤ j).
Proof.
  assert (seqs (Hospital.enforced PyList) !! Hospital.quasi_ident
    = Some (mkSeq PyList ["age"; "city"])) as H3 by (vm_compute; reflexivity).
  assert (frames Hospital.w1 !! data_kanon Hospital.s1
    = Some Hospital.table1) as H4 by (vm_compute; reflexivity).
  assert (select Hospital.table1 (candidates Hospital.s1 Hospital.w1)
    = Ok "age") as H5 by (vm_compute; reflexivity).
  destruct (ties_go_to_the_first_candidate oracle_spread enforcer_identity
              apply_hierarchy_spec Hospital.quasi_ident "disease" 0%Q
              Hospital.hierarchies _ _ _ _ _ _ _ _ _ _
              eq_refl hospital_enforcer H3) as [Hkept Hloop].
  destruct (Hloop _ _ hospital_prelude) as [_ Hpass].
  destruct (Hpass _ _ hospital_reach_1) as (_ & _ & Hsel).
  destruct (Hsel _ _ H4 H5) as [_ Hfirst].
  split_and!; [reflexivity|exact hospital_enforcer|exact H3|by vm_compute
              |by vm_compute|by vm_compute|exact H5|exact Hkept|exact Hfirst].
Defined.

(** ** Two runs that the amended C4 leaves aside *)

(** With the quasi-identifiers in a numpy array, the pass that finds the
    cities without a further level ends in the [AttributeError] of
    [remove], which an array does not have. *)
Example ndarray_candidates_raise :
  ∃ w, Hospital.run NdArray 0%Q 10 = Some (Raise AttributeError, w) ∧
       applied (log w) = ["age"; "age"; "city"].
Proof. eexists. split; vm_compute; reflexivity. Qed.

(** With the cities listed twice, [remove] drops one occurrence and the
    next pass tries the cities again. *)
Example duplicate_candidate_is_retried :
  ∃ l w, Hospital.run_twice 0%Q 10 = Some (Ok l, w) ∧
         applied (log w) = ["city"; "city"].
Proof. eexists _, _. split; vm_compute; reflexivity. Qed.

(** * Further properties of the function *)

Section Extras.

Variable oracle : DataFrame → pyseq → list string → result Q.
Variable k_anonymity_inner :
  loc → loc → loc → Z → Q → gmap string hierarchy →
  M (loc * Z * gmap string Z).
Variable apply_hierarchy : list value → hierarchy → Z → result (list value).

Variable quasi_ident : loc.
Variable sens_att : string.
Variable t : Q.
Variable hierarchies : gmap string hierarchy.

Abbreviation generalize_x := (generalize apply_hierarchy hierarchies).
Abbreviation after_select_x :=
  (after_select oracle apply_hierarchy quasi_ident sens_att t hierarchies).
Abbreviation iteration_x :=
  (iteration oracle apply_hierarchy quasi_ident sens_att t hierarchies).
Abbreviation while_loop_x :=
  (while_loop oracle apply_hierarchy quasi_ident sens_att t hierarchies).
Abbreviation step_x :=
  (step oracle apply_hierarchy quasi_ident sens_att t hierarchies).
Abbreviation t_closeness_x :=
  (t_closeness oracle k_anonymity_inner apply_hierarchy).
Abbreviation prelude_x := (prelude oracle k_anonymity_inner).

(** ** Why a pass raises *)

Lemma distinct_counts_raise df cand e :
  distinct_counts df cand = Raise e →
  e = KeyError ∧ ∃ q, q ∈ cand ∧ columns df !! q = None.
Proof.
  induction cand as [|q r IH]; simpl; [done|]. unfold get_column.
  destruct (columns df !! q) eqn:Hq.
  - destruct (distinct_counts df r); [done|]. intros [= <-].
    destruct IH as (-> & q' & ? & ?); [done|].
    split; [done|]. exists q'. split; [by right|done].
  - intros [= <-]. split; [done|]. exists q. split; [by left|done].
Qed.

Lemma select_raise df cand e :
  select df cand = Raise e → cand ≠ [] →
  e = KeyError ∧ ∃ q, q ∈ cand ∧ columns df !! q = None.
Proof.
  unfold select. destruct (distinct_counts df cand) as [ns|e'] eqn:Hns.
  - pose proof (distinct_counts_spec _ _ _ Hns) as Hlen%Forall2_length.
    intros Hraise Hne. exfalso.
    assert (argmax ns < length cand) as Hlt.
    { rewrite Hlen. apply argmax_lt. by destruct ns, cand. }
    apply lookup_lt_is_Some_2 in Hlt as [q Hq]. by rewrite Hq in Hraise.
  - intros [= <-] _. by apply distinct_counts_raise.
Qed.

Lemma generalize_raise s q w e w' :
  generalize_x s q w = (Raise e, w') →
  e = TypeError ∨
  (e = KeyError ∧
   (hierarchies !! q = None ∨ gen_level s !! q = None ∨
    ∃ dk, frames w !! data_kanon s = Some dk ∧ columns dk !! q = None)) ∨
  (e = AttributeError ∧
   ∃ cand, seqs w !! quasi_ident_gen s = Some cand ∧ kind cand = NdArray) ∨
  applier_raises apply_hierarchy e.
Proof.
  unfold generalize, try_except_ValueError, bind, lift, read_frame,
    read_seq, emit, write_frame, write_seq, ret, get_column, dict_get,
    seq_remove, set_column.
  intros H. repeat (case_match; simplify_eq/=); eauto 10.
  all: try (right; right; right; split; [done|]; by eauto).
Qed.

Lemma pass_raise s w e w' :
  iteration_x s w = (Raise e, w') →
  e = TypeError ∨
  (e = KeyError ∧
   ∃ q, q ∈ candidates s w ∧
        (hierarchies !! q = None ∨ gen_level s !! q = None ∨
         ∃ dk, frames w !! data_kanon s = Some dk ∧ columns dk !! q = None)) ∨
  (e = AttributeError ∧
   ∃ cand, seqs w !! quasi_ident_gen s = Some cand ∧ kind cand = NdArray) ∨
  applier_raises apply_hierarchy e ∨
  (∃ dk qi, oracle dk qi [sens_att] = Raise e).
Proof.
  unfold iteration, bind at 1, read_seq.
  destruct (seqs w !! quasi_ident_gen s) as [cand|] eqn:Hc;
    [|intros [= <- <-]; by left].
  assert (candidates s w = items cand) as Hcand
    by (unfold candidates; by rewrite Hc).
  destruct (decide (length (items cand) = 0)) as [Hlen|Hlen];
    [by unfold bind, emit, new_frame, ret|].
  unfold bind at 1, read_frame.
  destruct (frames w !! data_kanon s) as [dk|] eqn:Hdk;
    [|intros [= <- <-]; by left].
  unfold bind at 1, lift.
  destruct (select dk (items cand)) as [q|e0] eqn:Hq.
  2: { intros [= <- <-]. right. left.
       destruct (select_raise _ _ _ Hq) as (-> & q & Hin & Hcol);
         [by destruct (items cand)|].
       split; [done|]. exists q. rewrite Hcand. eauto 8. }
  pose proof (select_elem_of _ _ _ Hq) as Hin.
  unfold after_select, bind at 1.
  destruct (generalize_x s q w) as [[gl|e0] w1] eqn:Hg.
  2: { intros [= <- <-].
       destruct (generalize_raise _ _ _ _ _ Hg)
         as [->|[[-> Hk]|[[-> Ha]|Happ]]]; eauto 8.
       - right. left. split; [done|]. exists q. rewrite Hcand.
         rewrite Hdk in Hk. by split.
       - right. right. left. split; [done|]. by rewrite Hc in Ha. }
  unfold call_oracle, bind, read_frame, read_seq, emit, lift, ret.
  intros H. repeat (case_match; simplify_eq/=); eauto 10.
Qed.

(** ** A finished run of the loop is passes and a last pass *)

Lemma while_loop_decompose n s w r w' :
  while_loop_x n s w = Some (r, w') →
  Qgt_bool (t_real s) t = true →
  ∃ c,
    rtc step_x (s, w) c ∧
    Qgt_bool (t_real c.1) t = true ∧
    ((∃ l, r = Ok l ∧ iteration_x c.1 c.2 = (Ok (Return l), w')) ∨
     (∃ e, r = Raise e ∧ iteration_x c.1 c.2 = (Raise e, w'))).
Proof.
  revert s w. induction n as [|n IH]; intros s w; [done|]. simpl.
  intros Hloop Hgt. rewrite Hgt in Hloop.
  destruct (iteration_x s w) as [[[s'|l]|e] w1] eqn:Hit.
  - assert (step_x (s, w) (s', w1)) as Hstep by done.
    destruct (IH _ _ Hloop) as (c & Hreach & Hc & Hlast).
    { by apply (step_exceeds _ _ _ _ _ _ _ _ Hstep). }
    exists c. split; [by eapply rtc_l|done].
  - injection Hloop as <- <-. exists (s, w). split; [done|].
    split; [done|]. left. by exists l.
  - injection Hloop as <- <-. exists (s, w). split; [done|].
    split; [done|]. right. by exists e.
Qed.

Lemma step_kind c c' cand :
  step_x c c' →
  seqs c'.2 !! quasi_ident_gen c'.1 = Some cand →
  ∃ cand0, seqs c.2 !! quasi_ident_gen c.1 = Some cand0 ∧
           kind cand0 = kind cand.
Proof.
  destruct c as [s w], c' as [s' w']. intros [_ Hit]. simpl in *.
  apply iteration_inv in Hit.
  inversion Hit as [| |cand1 dk q gl w1 dk1 qi m Hc ? ? ? Hg| ]; subst.
  simpl. inversion Hg; subst; simpl; intros Hcand.
  - by exists cand.
  - rewrite lookup_insert_eq in Hcand. injection Hcand as <-. by eexists.
  - by exists cand.
Qed.

Lemma rtc_step_kind c c' cand :
  rtc step_x c c' →
  seqs c'.2 !! quasi_ident_gen c'.1 = Some cand →
  ∃ cand0, seqs c.2 !! quasi_ident_gen c.1 = Some cand0 ∧
           kind cand0 = kind cand.
Proof.
  intros Hreach. revert cand.
  induction Hreach as [|c c1 c' Hs _ IH]; intros cand Hc; [by exists cand|].
  destruct (IH _ Hc) as (cand1 & Hc1 & Hk1).
  destruct (step_kind _ _ _ Hs Hc1) as (cand0 & Hc0 & Hk0).
  exists cand0. split; [done|]. congruence.
Qed.

Lemma prelude_raise data ident k supp_level w e w' :
  prelude_x data ident quasi_ident sens_att k t supp_level hierarchies w
    = (Raise e, w') →
  (e = ValueError ∧ Qlt_bool t 0 || Qgt_bool t 1 = true) ∨
  (∃ w1, k_anonymity_inner data ident quasi_ident k supp_level hierarchies
           (mkWorld (frames w) (seqs w) (log w ++ [EKAnon]))
         = (Raise e, w1)) ∨
  e = TypeError ∨
  (∃ dk qi, oracle dk qi [sens_att] = Raise e).
Proof.
  unfold prelude.
  destruct (Qlt_bool t 0 || Qgt_bool t 1) eqn:Hv.
  { intros [= <- <-]. by left. }
  unfold bind at 1, emit. unfold bind at 1.
  destruct (k_anonymity_inner _ _ _ _ _ _ _) as [[[[dkl supp] gl]|e0] w1] eqn:Hk.
  2: { intros [= <- <-]. right. left. by exists w1. }
  unfold call_oracle, copy, bind, read_frame, read_seq, emit, lift, ret,
    new_seq.
  intros H. repeat (case_match; simplify_eq/=); eauto 10.
Qed.

(** X1. An exception that escapes [t_closeness] is the [ValueError]
    of the validation of [t], or one that the enforcer, the oracle or
    the applier raised (the applier's other than [ValueError]), or a
    [KeyError] for a candidate without a column, a hierarchy or a
    level at some pass, or the [AttributeError] of [remove] when the
    caller's quasi-identifiers are an array (or the model's
    [TypeError] for an object missing from the store). So a
    [ValueError] of the applier never reaches the caller. *)
Theorem escaping_exceptions fuel data ident k supp_level w e w' :
  t_closeness_x fuel data ident quasi_ident sens_att k t supp_level
    hierarchies w = Some (Raise e, w') →
  ((e = ValueError ∧ Qlt_bool t 0 || Qgt_bool t 1 = true) ∨
   (∃ w1, k_anonymity_inner data ident quasi_ident k supp_level hierarchies
            (mkWorld (frames w) (seqs w) (log w ++ [EKAnon]))
          = (Raise e, w1)) ∨
   (∃ dk qi, oracle dk qi [sens_att] = Raise e) ∨
   applier_raises apply_hierarchy e ∨
   e = TypeError ∨
   (e = KeyError ∧
    ∃ s0 w1 s w2 q,
      prelude_x data ident quasi_ident sens_att k t supp_level hierarchies w
        = (Ok (Next s0), w1) ∧
      rtc step_x (s0, w1) (s, w2) ∧
      q ∈ candidates s w2 ∧
      (hierarchies !! q = None ∨ gen_level s !! q = None ∨
       ∃ dk, frames w2 !! data_kanon s = Some dk ∧ columns dk !! q = None)) ∨
   (e = AttributeError ∧
    ∃ dkl supp gl wk qi,
      k_anonymity_inner data ident quasi_ident k supp_level hierarchies
        (mkWorld (frames w) (seqs w) (log w ++ [EKAnon]))
        = (Ok (dkl, supp, gl), wk) ∧
      seqs wk !! quasi_ident = Some qi ∧ kind qi = NdArray)) ∧
  (e = ValueError →
   Qlt_bool t 0 || Qgt_bool t 1 = true ∨
   (∃ w1, k_anonymity_inner data ident quasi_ident k supp_level hierarchies
            (mkWorld (frames w) (seqs w) (log w ++ [EKAnon]))
          = (Raise ValueError, w1)) ∨
   (∃ dk qi, oracle dk qi [sens_att] = Raise ValueError)).
Proof.
  intros Hrun.
  match goal with |- ?P ∧ _ => assert P as Hcases end.
  { revert Hrun. unfold t_closeness.
    destruct (prelude _ _ _ _ _ _ _ _ _ _ _) as [[[s0|l0]|e0] w1] eqn:Hpre.
    - intros Hloop.
      destruct (while_loop_decompose _ _ _ _ _ Hloop)
        as ([s w2] & Hreach & _ & [(l & ? & _)|(e1 & [= <-] & Hit)]);
        [by eapply entry_exceeds|done|]. simpl in Hit.
      destruct (pass_raise _ _ _ _ Hit)
        as [->|[[-> (q & Hq & Hmiss)]|[[-> (cand & Hc & Hk)]|[Happ|Hor]]]];
        eauto 10.
      + do 5 right. left. split; [done|]. by exists s0, w1, s, w2, q.
      + do 6 right. split; [done|].
        destruct (rtc_step_kind _ _ _ Hreach Hc) as (cand0 & Hc0 & Hk0).
        simpl in Hc0. apply prelude_inv in Hpre.
        inversion Hpre as [| | | |dkl supp gl wk dk qi m ? Hk' ? Hqi]; subst.
        simpl in Hc0. rewrite lookup_insert_eq in Hc0. injection Hc0 as <-.
        exists dkl, supp, gl, wk, qi. split_and!; [done..|]. congruence.
    - done.
    - intros [= <- <-].
      destruct (prelude_raise _ _ _ _ _ _ _ Hpre) as [?|[?|[?|?]]];
        eauto 10. }
  split; [done|]. intros ->.
  destruct Hcases as [[_ ?]|[?|[?|[[Hne _]|[?|[[? _]|[? _]]]]]]];
    eauto; done.
Qed.


(** ** Missing keys *)

Lemma select_missing df cand q :
  q ∈ cand → columns df !! q = None → select df cand = Raise KeyError.
Proof.
  intros Hin Hq. unfold select.
  assert (distinct_counts df cand = Raise KeyError) as ->; [|done].
  induction cand as [|q' r IH]; [by apply elem_of_nil in Hin|]. simpl.
  unfold get_column. destruct (columns df !! q') eqn:Hq'.
  - apply elem_of_cons in Hin as [->|Hin]; [congruence|].
    by rewrite IH.
  - done.
Qed.

(** X3. A pass whose candidates include an attribute that is not a
    column of the table, or whose selected attribute has no hierarchy
    or no recorded level, ends the run with [KeyError]: nothing was
    written to the store or the log, the applier was not called and
    the oracle was not called again. *)
Theorem missing_key_raises_KeyError s w cand dk n :
  Qgt_bool (t_real s) t = true →
  seqs w !! quasi_ident_gen s = Some cand →
  frames w !! data_kanon s = Some dk →
  (∃ q, q ∈ items cand ∧ columns dk !! q = None) ∨
  (∃ q, select dk (items cand) = Ok q ∧
        (hierarchies !! q = None ∨ gen_level s !! q = None)) →
  while_loop_x (S n) s w = Some (Raise KeyError, w).
Proof.
  intros Hgt Hc Hdk Hmiss. simpl. rewrite Hgt.
  assert (iteration_x s w = (Raise KeyError, w)) as ->; [|done].
  destruct Hmiss as [(q & Hin & Hq)|(q & Hsel & Hq)].
  - unfold iteration, bind at 1, read_seq. rewrite Hc.
    rewrite decide_False
      by (destruct (items cand); [by apply elem_of_nil in Hin|done]).
    unfold bind at 1, read_frame. rewrite Hdk.
    unfold bind at 1, lift. by rewrite (select_missing _ _ _ Hin Hq).
  - rewrite (iteration_selects _ _ _ _ _ _ _ _ _ _ _ Hc Hdk Hsel).
    destruct (select_spec _ _ _ Hsel) as (_ & n0 & _ & Hn & _).
    unfold distinct in Hn.
    destruct (columns dk !! q) as [col|] eqn:Hcol; [|done].
    unfold after_select, bind at 1.
    unfold generalize, try_except_ValueError, bind, lift, read_frame,
      get_column, dict_get.
    rewrite Hdk, Hcol. simpl.
    destruct (hierarchies !! q) as [h|] eqn:Hh; [|done].
    destruct Hq as [?|Hq]; [done|]. by rewrite Hq.
Qed.

(** X4. With the candidates in a numpy array, a pass in which lifting
    the selected attribute fails for want of a level ends the run with
    the [AttributeError] of [remove]: the table and the sequences are
    as they were and the log has gained the attempt only. *)
Theorem ndarray_removal_raises s w cand dk q col h lvl n :
  Qgt_bool (t_real s) t = true →
  seqs w !! quasi_ident_gen s = Some cand →
  kind cand = NdArray →
  frames w !! data_kanon s = Some dk →
  select dk (items cand) = Ok q →
  columns dk !! q = Some col →
  hierarchies !! q = Some h →
  gen_level s !! q = Some lvl →
  exhausted apply_hierarchy dk q col h lvl →
  while_loop_x (S n) s w
  = Some (Raise AttributeError,
          mkWorld (frames w) (seqs w) (log w ++ [EApply q (lvl + 1)])).
Proof.
  intros Hgt Hc Hk Hdk Hsel Hcol Hh Hlvl Hex. simpl. rewrite Hgt.
  pose proof (select_elem_of _ _ _ Hsel) as Hin.
  rewrite (iteration_selects _ _ _ _ _ _ _ _ _ _ _ Hc Hdk Hsel).
  unfold after_select, bind at 1.
  unfold generalize, try_except_ValueError, bind, lift, read_frame, read_seq,
    emit, write_frame, write_seq, ret, get_column, dict_get, seq_remove.
  rewrite Hdk, Hcol, Hh, Hlvl. simpl.
  destruct Hex as [->|(g & -> & ->)]; simpl; rewrite Hc, Hk;
    by rewrite decide_True by done.
Qed.

(** ** Counting attempts and calls *)

Lemma applied_app l1 l2 : applied (l1 ++ l2) = applied l1 ++ applied l2.
Proof.
  induction l1 as [|e l1 IH]; [done|]. destruct e; simpl; by rewrite ?IH.
Qed.


Lemma generalized_log s q w gl w1 :
  generalized apply_hierarchy hierarchies s q w (Ok gl) w1 →
  ∃ lvl, log w1 = log w ++ [EApply q lvl].
Proof. inversion 1; subst; simpl; by eexists. Qed.

Lemma step_log c c' :
  step_x c c' →
  ∃ q lvl dk qi,
    log c'.2 = log c.2 ++ [EApply q lvl; EOracle dk qi [sens_att]].
Proof.
  destruct c as [s w], c' as [s' w']. intros [_ Hit]. simpl in *.
  apply iteration_inv in Hit.
  inversion Hit as [| |cand dk q gl w1 dk1 qi m ? ? ? ? Hg| ]; subst. simpl.
  destruct (generalized_log _ _ _ _ _ Hg) as [lvl ->].
  exists q, lvl, dk1, qi. by rewrite <- app_assoc.
Qed.

Lemma return_log s w l w' :
  iteration_x s w = (Ok (Return l), w') →
  (candidates s w = [] ∧ log w' = log w ++ [EPrintInfeasible t] ∧
   l = fresh (dom (frames w))) ∨
  (candidates s w ≠ [] ∧ l = data_kanon s ∧
   ∃ q lvl dk qi,
     log w' = log w ++ [EApply q lvl; EOracle dk qi [sens_att]]).
Proof.
  intros Hit%iteration_inv.
  inversion Hit as [cand Hc Hnil|cand dk q gl w1 dk1 qi m Hc Hne ? ? Hg| |];
    subst; simpl; unfold candidates; rewrite Hc.
  - by left.
  - right. split_and!; [done..|].
    destruct (generalized_log _ _ _ _ _ Hg) as [lvl ->].
    exists q, lvl, dk1, qi. by rewrite <- app_assoc.
Qed.

Lemma nsteps_counts k c c' :
  nsteps step_x k c c' →
  oracle_calls (log c'.2) = oracle_calls (log c.2) + k ∧
  length (applied (log c'.2)) = length (applied (log c.2)) + k.
Proof.
  induction 1 as [|k c c1 c' Hs _ [IH1 IH2]]; [by rewrite !Nat.add_0_r|].
  destruct (step_log _ _ Hs) as (q & lvl & dk & qi & Hlog).
  rewrite IH1, IH2, Hlog, oracle_calls_app, applied_app, length_app. simpl.
  lia.
Qed.

(** X5. Every pass that falls through makes exactly one attempt to
    generalize and exactly one call to the oracle; and in every run of
    [t_closeness] that returns a table, the calls to the oracle made
    since the enforcer returned are one more than the attempts. *)
Theorem one_oracle_call_per_attempt :
  (∀ k c c',
     nsteps step_x k c c' →
     oracle_calls (log c'.2) = oracle_calls (log c.2) + k ∧
     length (applied (log c'.2)) = length (applied (log c.2)) + k) ∧
  (∀ fuel data ident k supp_level w dkl supp gl wk l w',
     k_anonymity_inner data ident quasi_ident k supp_level hierarchies
       (mkWorld (frames w) (seqs w) (log w ++ [EKAnon]))
       = (Ok (dkl, supp, gl), wk) →
     t_closeness_x fuel data ident quasi_ident sens_att k t supp_level
       hierarchies w = Some (Ok l, w') →
     oracle_calls (log w') + length (applied (log wk))
     = oracle_calls (log wk) + 1 + length (applied (log w'))).
Proof.
  split; [apply nsteps_counts|].
  intros fuel data ident k supp_level w dkl supp gl wk l w' Hk.
  unfold t_closeness.
  destruct (prelude _ _ _ _ _ _ _ _ _ _ _) as [[[s0|l0]|e] w1] eqn:Hpre;
    [| |done].
  - intros Hloop.
    destruct (while_loop_decompose _ _ _ _ _ Hloop)
      as ([s w2] & [n Hn]%rtc_nsteps & _ & [(l1 & [= <-] & Hit)|(? & ? & _)]);
      [by eapply entry_exceeds| |done].
    destruct (nsteps_counts _ _ _ Hn) as [Ho Ha]. simpl in *.
    apply prelude_inv in Hpre.
    inversion Hpre as [| | | |? ? ? ? ? ? ? ? Hk']; subst.
    rewrite Hk in Hk'. injection Hk' as <- <- <- <-. simpl in *.
    rewrite oracle_calls_app in Ho. rewrite applied_app, length_app in Ha.
    simpl in *.
    destruct (return_log _ _ _ _ Hit)
      as [(_ & -> & _)|(_ & _ & q & lvl & dk1 & qi1 & ->)];
      rewrite oracle_calls_app, applied_app, length_app; simpl; lia.
  - intros [= <- <-]. apply prelude_inv in Hpre.
    inversion Hpre as [| | |? ? ? ? ? ? ? ? Hk'|]; subst.
    rewrite Hk in Hk'. injection Hk' as <- <- <- <-. simpl.
    rewrite oracle_calls_app, applied_app, length_app. simpl. lia.
Qed.

(** ** How long the loop can run *)

Lemma nsteps_measure k c c' :
  fails_beyond_top apply_hierarchy hierarchies →
  nsteps step_x k c c' →
  k + measure hierarchies c'.1 c'.2 ≤ measure hierarchies c.1 c.2.
Proof.
  intros Htop. induction 1 as [|k c c1 c' Hs _ IH]; [done|].
  destruct (step_measure _ _ _ _ _ _ _ _ Htop Hs) as [Hlt _]. lia.
Qed.

Lemma pass_attempts s w r w' :
  iteration_x s w = (r, w') →
  length (applied (log w')) ≤ length (applied (log w)) + 1 ∧
  (candidates s w = [] → applied (log w') = applied (log w)).
Proof.
  unfold iteration, after_select, generalize, try_except_ValueError,
    call_oracle, bind, lift, read_frame, read_seq, emit, write_frame,
    write_seq, new_frame, ret, get_column, dict_get, seq_remove, candidates.
  intros H.
  repeat (case_match; simplify_eq/=);
    rewrite ?applied_app, ?length_app; simpl;
    rewrite ?app_nil_r, ?length_app; simpl;
    (split; [lia|]); try done;
    match goal with
    | Hl : length ?l ≠ 0 |- ?l = [] → _ =>
        let Hnil := fresh in
        intros Hnil; exfalso; apply Hl; by rewrite Hnil
    end.
Qed.

Lemma prelude_raise_applied data ident k supp_level w dkl supp gl wk e w' :
  k_anonymity_inner data ident quasi_ident k supp_level hierarchies
    (mkWorld (frames w) (seqs w) (log w ++ [EKAnon]))
    = (Ok (dkl, supp, gl), wk) →
  Qlt_bool t 0 || Qgt_bool t 1 = false →
  prelude_x data ident quasi_ident sens_att k t supp_level hierarchies w
    = (Raise e, w') →
  applied (log w') = applied (log wk).
Proof.
  intros Hk Hv. unfold prelude. rewrite Hv.
  unfold bind at 1, emit. unfold bind at 1. rewrite Hk.
  unfold call_oracle, copy, bind, read_frame, read_seq, emit, lift, ret,
    new_seq.
  intros H. repeat (case_match; simplify_eq/=);
    rewrite ?applied_app; simpl; by rewrite ?app_nil_r.
Qed.

(** X6. If the applier succeeds only at levels that the hierarchy has,
    a run of [k] passes that fall through leaves a variant that is
    lower by at least [k]; and whatever way a run of [t_closeness]
    ends, the attempts to generalize made since the enforcer returned
    number at most the quasi-identifiers plus the levels that the
    enforcer left them to climb. *)
Theorem attempts_are_bounded :
  fails_beyond_top apply_hierarchy hierarchies →
  (∀ k c c',
     nsteps step_x k c c' →
     k + measure hierarchies c'.1 c'.2 ≤ measure hierarchies c.1 c.2) ∧
  (∀ fuel data ident k supp_level w dkl supp gl wk qi r w',
     Qlt_bool t 0 || Qgt_bool t 1 = false →
     k_anonymity_inner data ident quasi_ident k supp_level hierarchies
       (mkWorld (frames w) (seqs w) (log w ++ [EKAnon]))
       = (Ok (dkl, supp, gl), wk) →
     seqs wk !! quasi_ident = Some qi →
     t_closeness_x fuel data ident quasi_ident sens_att k t supp_level
       hierarchies w = Some (r, w') →
     length (applied (log w'))
     ≤ length (applied (log wk)) + length (items qi)
       + sum_list ((λ qh, room gl qh.1 qh.2) <$> map_to_list hierarchies)).
Proof.
  intros Htop. split; [intros k c c'; by apply nsteps_measure|].
  intros fuel data ident k supp_level w dkl supp gl wk qi r w' Hv Hk Hqi.
  unfold t_closeness.
  destruct (prelude _ _ _ _ _ _ _ _ _ _ _) as [[[s0|l0]|e] w1] eqn:Hpre.
  - intros Hloop.
    assert (∃ c, rtc step_x (s0, w1) c ∧ ∃ r1, iteration_x c.1 c.2 = (r1, w'))
      as ([s w2] & [n Hn]%rtc_nsteps & r1 & Hit).
    { destruct (while_loop_decompose _ _ _ _ _ Hloop)
        as (c & Hreach & _ & [(l1 & _ & Hit)|(e & _ & Hit)]);
        [by eapply entry_exceeds|by eauto..]. }
    pose proof (nsteps_measure _ _ _ Htop Hn) as Hm.
    destruct (nsteps_counts _ _ _ Hn) as [_ Ha]. simpl in *.
    destruct (pass_attempts _ _ _ _ Hit) as [Hle Hnil].
    apply prelude_inv in Hpre.
    inversion Hpre as [| | | |? ? ? ? ? ? ? ? Hk' ? Hqi']; subst.
    rewrite Hk in Hk'. injection Hk' as <- <- <- <-.
    assert (qi0 = qi) as -> by congruence.
    unfold measure in Hm. simpl in *.
    unfold candidates at 2 in Hm. simpl in Hm.
    rewrite lookup_insert_eq in Hm.
    rewrite applied_app, length_app in Ha. simpl in Ha.
    destruct (candidates s w2) as [|q0 rest] eqn:Hcand.
    + rewrite (Hnil eq_refl). simpl in Hm. lia.
    + simpl in Hm. lia.
  - intros [= <- <-]. apply prelude_inv in Hpre.
    inversion Hpre as [| | |? ? ? ? ? ? ? ? Hk'|]; subst.
    rewrite Hk in Hk'. injection Hk' as <- <- <- <-. simpl.
    rewrite applied_app, length_app. simpl. lia.
  - intros [= <- <-].
    rewrite (prelude_raise_applied _ _ _ _ _ _ _ _ _ _ _ Hk Hv Hpre). lia.
Qed.

(** ** The generalization state stays within the hierarchies *)

(** X7. The loop never adds an attribute to the generalization state
    and never removes one; and if the applier succeeds only at levels
    that the hierarchy has and no recorded level lies above the top of
    its hierarchy when the loop starts, none does after any number of
    passes. *)
Theorem levels_stay_in_range c c' :
  rtc step_x c c' →
  dom (gen_level c'.1) = dom (gen_level c.1) ∧
  (fails_beyond_top apply_hierarchy hierarchies →
   levels_in_range hierarchies (gen_level c.1) →
   levels_in_range hierarchies (gen_level c'.1)).
Proof.
  induction 1 as [c|c c1 c' Hs _ [IHdom IHrange]]; [done|].
  destruct (step_levels _ _ _ _ _ _ _ _ Hs)
    as [Heq|(dk & q & lvl & _ & _ & Hlvl & Heq)].
  - rewrite IHdom, Heq. split; [done|]. intros Htop Hin.
    apply IHrange; [done|]. by rewrite Heq.
  - split.
    + rewrite IHdom, Heq, dom_insert_L. apply subseteq_union_1_L.
      apply singleton_subseteq_l, elem_of_dom. by eexists.
    + intros Htop Hin. apply IHrange; [done|]. rewrite Heq.
      intros q' h' lvl' Hh'. destruct (decide (q' = q)) as [->|Hne].
      * rewrite lookup_insert_eq. intros [= <-].
        destruct (step_measure _ _ _ _ _ _ _ _ Htop Hs)
          as [_ [(q0 & h0 & l0 & Hh0 & Hl0 & Hle & Heq0 & _)|[Hsame _]]].
        -- assert (q0 = q ∧ l0 = lvl) as [-> ->].
           { rewrite Heq in Heq0.
             assert (<[q:=(lvl + 1)%Z]> (gen_level c.1) !! q0
                     = <[q0:=(l0 + 1)%Z]> (gen_level c.1) !! q0) as Hq0
               by (by rewrite Heq0).
             rewrite lookup_insert_eq in Hq0.
             destruct (decide (q = q0)) as [->|Hne].
             - rewrite lookup_insert_eq in Hq0. injection Hq0 as Hq0.
               split; [done|]. lia.
             - rewrite lookup_insert_ne in Hq0 by done.
               rewrite Hl0 in Hq0. injection Hq0 as Hq0. lia. }
           assert (h0 = h') as -> by congruence. done.
        -- exfalso. rewrite Heq in Hsame.
           assert (<[q:=(lvl + 1)%Z]> (gen_level c.1) !! q
                   = gen_level c.1 !! q) as Hq by (by rewrite Hsame).
           rewrite lookup_insert_eq, Hlvl in Hq. injection Hq as Hq. lia.
      * rewrite lookup_insert_ne by done. by apply Hin.
Qed.

(** ** What one pass does to the store *)

(** X8. A pass that falls through does one of two things and never
    both. Either it replaces the selected column by what the applier
    made of it at the next level, raises that attribute's level by one
    and leaves every sequence as it is; or it removes the selected
    attribute once from the candidates and leaves every dataframe and
    every level as it is. *)
Theorem pass_generalizes_or_prunes c c' :
  step_x c c' →
  (∃ q dk col h lvl g dk',
     select dk (candidates c.1 c.2) = Ok q ∧
     frames c.2 !! data_kanon c.1 = Some dk ∧
     columns dk !! q = Some col ∧
     hierarchies !! q = Some h ∧
     gen_level c.1 !! q = Some lvl ∧
     apply_hierarchy col h (lvl + 1) = Ok g ∧
     length g = nrows dk ∧
     dk' = mkFrame (nrows dk) (<[q := g]> (columns dk)) ∧
     frames c'.2 = <[data_kanon c.1 := dk']> (frames c.2) ∧
     gen_level c'.1 = <[q := (lvl + 1)%Z]> (gen_level c.1) ∧
     seqs c'.2 = seqs c.2) ∨
  (∃ q dk cand,
     select dk (items cand) = Ok q ∧
     frames c.2 !! data_kanon c.1 = Some dk ∧
     seqs c.2 !! quasi_ident_gen c.1 = Some cand ∧
     seqs c'.2
     = <[quasi_ident_gen c.1 := mkSeq PyList (remove_first q (items cand))]>
         (seqs c.2) ∧
     frames c'.2 = frames c.2 ∧
     gen_level c'.1 = gen_level c.1).
Proof.
  destruct c as [s w], c' as [s' w']. intros [_ Hit]. simpl in *.
  apply iteration_inv in Hit.
  inversion Hit as [| |cand dk q gl w1 dk1 qi m Hc ? Hdk Hsel Hg| ]; subst.
  simpl.
  inversion Hg as [dk0 col h lvl g dk' Hdk0 Hcol Hh Hlvl Happ Hset
                  |dk0 col h lvl cand0 ? ? ? ? ? Hc0
                  |dk0 col h lvl cand0 ? ? ? ? ? Hc0 Hnotin|]; subst; simpl.
  - left. assert (dk0 = dk) as -> by congruence.
    unfold set_column in Hset.
    destruct (decide (length g = nrows dk)) as [Hlen|]; [|done].
    injection Hset as <-.
    exists q, dk, col, h, lvl, g. eexists. unfold candidates. rewrite Hc.
    split_and!; done.
  - right. assert (cand0 = cand) as -> by congruence.
    exists q, dk, cand. split_and!; done.
  - exfalso. assert (cand0 = cand) as -> by congruence.
    apply Hnotin. by eapply select_elem_of.
Qed.

(** ** What the function leaves alone *)




(** ** Messages *)



(** ** The table on every path *)

Lemma pass_table s w r w' df :
  iteration_x s w = (r, w') →
  frames w !! data_kanon s = Some df →
  ∃ df',
    frames w' !! data_kanon s = Some df' ∧
    (df' = df ∨
     ∃ q col g, q ∈ candidates s w ∧ columns df !! q = Some col ∧
                set_column df q g = Ok df').
Proof.
  intros Hit Hdf.
  destruct (seqs w !! quasi_ident_gen s) as [cand|] eqn:Hc.
  2: { revert Hit. unfold iteration, bind at 1, read_seq. rewrite Hc.
       intros [= <- <-]. exists df. by split; [|left]. }
  destruct (decide (items cand = [])) as [Hnil|Hne].
  { rewrite (iteration_infeasible _ _ _ _ _ _ _ _ _ Hc Hnil) in Hit.
    injection Hit as <- <-. exists df. simpl. split; [|by left].
    rewrite lookup_insert_ne; [done|]. intros Heq.
    apply (is_fresh (dom (frames w))). rewrite Heq. apply elem_of_dom.
    by eexists. }
  revert Hit. unfold iteration, bind at 1, read_seq. rewrite Hc.
  rewrite decide_False by (by destruct (items cand)).
  unfold bind at 1, read_frame. rewrite Hdf. unfold bind at 1, lift.
  destruct (select df (items cand)) as [q|e] eqn:Hsel.
  2: { intros [= <- <-]. exists df. by split; [|left]. }
  pose proof (select_elem_of _ _ _ Hsel) as Hin.
  assert (candidates s w = items cand) as Hcand
    by (unfold candidates; by rewrite Hc).
  unfold after_select, generalize, try_except_ValueError, call_oracle, bind,
    lift, read_frame, read_seq, emit, write_frame, write_seq, ret, get_column,
    dict_get, seq_remove.
  intros H. repeat (case_match; simplify_eq/=).
  all: first
    [ by (eexists; split; [eassumption|left])
    | eexists; (split; [by apply lookup_insert_eq|]); right; rewrite Hcand;
      by eauto 10 ].
Qed.

Lemma while_loop_table qi dk n s w r w' df :
  while_loop_x n s w = Some (r, w') →
  frames w !! data_kanon s = Some df →
  generalization_of qi dk df →
  (∀ q, q ∈ candidates s w → q ∈ qi) →
  ∃ df', frames w' !! data_kanon s = Some df' ∧ generalization_of qi dk df'.
Proof.
  revert s w df. induction n as [|n IH]; intros s w df; [done|]. simpl.
  destruct (Qgt_bool (t_real s) t) eqn:Hgt.
  2: { intros [= <- <-] Hdf Hgen _. by exists df. }
  destruct (iteration_x s w) as [rc w1] eqn:Hit.
  intros Hloop Hdf Hgen Hsub.
  destruct (pass_table _ _ _ _ _ Hit Hdf) as (df1 & Hdf1 & Hcase).
  assert (generalization_of qi dk df1) as Hgen1.
  { destruct Hcase as [->|(q & col & g & Hq & Hcol & Hset)]; [done|].
    eapply generalization_of_set; [exact Hgen|by apply Hsub|done..]. }
  destruct rc as [[s'|l]|e].
  - destruct (step_locs oracle apply_hierarchy quasi_ident sens_att t
                hierarchies (s, w) (s', w1)) as [Hld Hlg]; [done|].
    simpl in Hld, Hlg. rewrite <- Hld.
    eapply (IH s' w1 df1); [done|by rewrite Hld|done|].
    intros q Hq. apply Hsub.
    destruct (step_candidates oracle apply_hierarchy quasi_ident sens_att t
                hierarchies (s, w) (s', w1)) as [Heq|(q0 & _ & Heq)];
      [done| |]; simpl in Heq; rewrite Heq in Hq; [done|].
    eapply elem_of_sublist; [exact Hq|apply remove_first_sublist].
  - injection Hloop as <- <-. by exists df1.
  - injection Hloop as <- <-. by exists df1.
Qed.

(** X11. On every path, also when the run reports infeasibility or
    raises in the loop, the enforcer's table is still in the store at
    the end with as many rows and the same columns as the enforcer
    returned it with, and every column outside the quasi-identifiers
    holds what it held then: what the loop has generalized stays
    generalized in place, nothing else changes. *)
Theorem table_is_kept_on_every_path fuel data ident k supp_level w dkl supp gl
    wk dk qi r w' :
  Qlt_bool t 0 || Qgt_bool t 1 = false →
  k_anonymity_inner data ident quasi_ident k supp_level hierarchies
    (mkWorld (frames w) (seqs w) (log w ++ [EKAnon]))
    = (Ok (dkl, supp, gl), wk) →
  frames wk !! dkl = Some dk →
  seqs wk !! quasi_ident = Some qi →
  t_closeness_x fuel data ident quasi_ident sens_att k t supp_level
    hierarchies w = Some (r, w') →
  ∃ df,
    frames w' !! dkl = Some df ∧
    nrows df = nrows dk ∧
    dom (columns df) = dom (columns dk) ∧
    (∀ c, c ∉ items qi → columns df !! c = columns dk !! c) ∧
    ((∀ c col, columns dk !! c = Some col → length col = nrows dk) →
     ∀ c col, columns df !! c = Some col → length col = nrows df).
Proof.
  intros Hv Hk Hdk Hqi. unfold t_closeness.
  destruct (prelude _ _ _ _ _ _ _ _ _ _ _) as [[[s0|l0]|e] w1] eqn:Hpre;
    apply prelude_inv in Hpre.
  - inversion Hpre as [| | | |? ? ? ? ? ? ? ? Hk' ? Hqi']; subst.
    rewrite Hk in Hk'. injection Hk' as <- <- <- <-.
    assert (qi0 = qi) as -> by congruence. intros Hloop.
    destruct (while_loop_table (items qi) dk _ _ _ _ _ dk Hloop)
      as (df & Hdf & Hgen); [done|apply generalization_of_refl| |].
    { unfold candidates. simpl. by rewrite lookup_insert_eq. }
    exists df. split; [done|]. exact Hgen.
  - intros [= <- <-]. inversion Hpre as [| | |? ? ? ? ? ? ? ? Hk'|]; subst.
    rewrite Hk in Hk'. injection Hk' as <- <- <- <-. simpl.
    exists dk. split; [done|]. apply generalization_of_refl.
  - intros [= <- <-].
    inversion Hpre as [|? ? ? Hk'|? ? ? ? ? ? ? Hk' Hf Hs| |]; subst;
      [congruence|congruence|].
    rewrite Hk in Hk'. injection Hk' as <- <- <- <-.
    exists dk. rewrite Hf. split; [done|]. apply generalization_of_refl.
Qed.

End Extras.

(** ** The further properties at work on the hospital table *)

Lemma hospital_nsteps_4 :
  nsteps (step oracle_spread apply_hierarchy_spec Hospital.quasi_ident "disease" 0%Q Hospital.hierarchies) 4
    ((Hospital.entry PyList 0%Q).1, (Hospital.entry PyList 0%Q).2)
    ((Hospital.pass PyList 0%Q 4).1, (Hospital.pass PyList 0%Q 4).2).
Proof.
  eapply (nsteps_l _ _ _ (_, _)); [apply (hospital_pass PyList 0); by vm_compute|].
  eapply (nsteps_l _ _ _ (_, _)); [apply (hospital_pass PyList 1); by vm_compute|].
  eapply (nsteps_l _ _ _ (_, _)); [apply (hospital_pass PyList 2); by vm_compute|].
  eapply (nsteps_l _ _ _ (_, _)); [apply (hospital_pass PyList 3); by vm_compute|].
  apply nsteps_O.
Qed.

Lemma hospital_step_0 :
  step oracle_spread apply_hierarchy_spec Hospital.quasi_ident "disease" 0%Q Hospital.hierarchies
    ((Hospital.entry PyList 0%Q).1, (Hospital.entry PyList 0%Q).2)
    (Hospital.s1, Hospital.w1).
Proof. apply (hospital_pass PyList 0); by vm_compute. Qed.

Lemma hospital_levels_in_range :
  levels_in_range Hospital.hierarchies (gen_level (Hospital.entry PyList 0%Q).1).
Proof.
  intros q h lvl Hh Hl.
  destruct (decide (q = "age")) as [->|Hage];
    [vm_compute in Hh, Hl; by simplify_eq|].
  destruct (decide (q = "city")) as [->|Hcity];
    [vm_compute in Hh, Hl; by simplify_eq|].
  unfold Hospital.hierarchies in Hh. simpl in Hh.
  by rewrite !lookup_insert_ne, lookup_empty in Hh.
Qed.

Lemma escaping_exceptions_witness :
  Hospital.run NdArray 0%Q 10
    = Some (Raise AttributeError, Hospital.final_world NdArray 0%Q 10) ∧
  ∃ dkl supp gl wk qi,
    enforcer_identity Hospital.data Hospital.ident Hospital.quasi_ident 2 0%Q
    Hospital.hierarchies
    (mkWorld (frames (Hospital.start NdArray)) (seqs (Hospital.start NdArray))
             (log (Hospital.start NdArray) ++ [EKAnon]))
    = (Ok (dkl, supp, gl), wk) ∧
    seqs wk !! Hospital.quasi_ident = Some qi ∧ kind qi = NdArray.
Proof.
  assert (Hospital.run NdArray 0%Q 10
    = Some (Raise AttributeError, Hospital.final_world NdArray 0%Q 10)) as H1
    by (vm_compute; reflexivity).
  split; [exact H1|].
  destruct (proj1 (escaping_exceptions oracle_spread enforcer_identity
                     apply_hierarchy_spec _ _ _ _ _ _ _ _ _ _ _ _ H1))
    as [[? _]|[[w1 Hw1]|[(dk & qi & Hor)|[[_ (col & h & lvl & Happ)]
       |[?|[[? _]|Harr]]]]]]; try discriminate.
  - exfalso. unfold apply_hierarchy_spec in Happ.
    repeat case_match; try discriminate.
    clear -Happ. revert Happ.
    generalize dependent col. intros col.
    match goal with |- images ?p ?c _ = _ → _ => generalize p, c end.
    intros prev cur. induction col as [|v r IH]; simpl; [done|].
    destruct (index_of v prev ≫= _); [|done].
    destruct (images prev cur r); [done|]. intros [= ->]. by apply IH.
  - exact (proj2 Harr).
Defined.


Lemma missing_key_raises_KeyError_witness :
  Qgt_bool (t_real Hospital.s2) 0 = true ∧
  seqs Hospital.w2 !! quasi_ident_gen Hospital.s2
    = Some (mkSeq PyList ["age"; "city"]) ∧
  frames Hospital.w2 !! data_kanon Hospital.s2 = Some Hospital.table2 ∧
  (select Hospital.table2 (items (mkSeq PyList ["age"; "city"])) = Ok "city" ∧
   hierarchies_age_only !! "city" = None) ∧
  while_loop oracle_spread apply_hierarchy_spec Hospital.quasi_ident "disease" 0%Q hierarchies_age_only 1 Hospital.s2 Hospital.w2
  = Some (Raise KeyError, Hospital.w2).
Proof.
  assert (Qgt_bool (t_real Hospital.s2) 0 = true) as H1
    by (vm_compute; reflexivity).
  assert (seqs Hospital.w2 !! quasi_ident_gen Hospital.s2
    = Some (mkSeq PyList ["age"; "city"])) as H2 by (vm_compute; reflexivity).
  assert (frames Hospital.w2 !! data_kanon Hospital.s2
    = Some Hospital.table2) as H3 by (vm_compute; reflexivity).
  assert (select Hospital.table2 (items (mkSeq PyList ["age"; "city"]))
    = Ok "city") as H4 by (vm_compute; reflexivity).
  assert (hierarchies_age_only !! "city" = None) as H5
    by (vm_compute; reflexivity).
  split_and!; [exact H1|exact H2|exact H3|exact H4|exact H5|].
  exact (missing_key_raises_KeyError oracle_spread apply_hierarchy_spec
           Hospital.quasi_ident "disease" 0%Q hierarchies_age_only
           _ _ _ _ 0 H1 H2 H3
           (or_intror (ex_intro _ "city" (conj H4 (or_introl H5))))).
Defined.

Lemma ndarray_removal_raises_witness :
  Qgt_bool (t_real s2_array) 0 = true ∧
  seqs w2_array !! quasi_ident_gen s2_array
    = Some (mkSeq NdArray ["age"; "city"]) ∧
  kind (mkSeq NdArray ["age"; "city"]) = NdArray ∧
  frames w2_array !! data_kanon s2_array = Some Hospital.table2 ∧
  select Hospital.table2 (items (mkSeq NdArray ["age"; "city"])) = Ok "city" ∧
  columns Hospital.table2 !! "city"
    = Some ["Kerala"; "Kerala"; "Delhi"; "Delhi"] ∧
  Hospital.hierarchies !! "city" = Some Hospital.city_hierarchy ∧
  gen_level s2_array !! "city" = Some 0%Z ∧
  exhausted apply_hierarchy_spec Hospital.table2 "city"
    ["Kerala"; "Kerala"; "Delhi"; "Delhi"] Hospital.city_hierarchy 0 ∧
  while_loop oracle_spread apply_hierarchy_spec Hospital.quasi_ident "disease" 0%Q Hospital.hierarchies 1 s2_array w2_array
  = Some (Raise AttributeError,
          mkWorld (frames w2_array) (seqs w2_array)
                  (log w2_array ++ [EApply "city" 1])).
Proof.
  assert (Qgt_bool (t_real s2_array) 0 = true) as H1
    by (vm_compute; reflexivity).
  assert (seqs w2_array !! quasi_ident_gen s2_array
    = Some (mkSeq NdArray ["age"; "city"])) as H2 by (vm_compute; reflexivity).
  assert (frames w2_array !! data_kanon s2_array = Some Hospital.table2)
    as H4 by (vm_compute; reflexivity).
  assert (select Hospital.table2 (items (mkSeq NdArray ["age"; "city"]))
    = Ok "city") as H5 by (vm_compute; reflexivity).
  assert (columns Hospital.table2 !! "city"
    = Some ["Kerala"; "Kerala"; "Delhi"; "Delhi"]) as H6
    by (vm_compute; reflexivity).
  assert (Hospital.hierarchies !! "city" = Some Hospital.city_hierarchy)
    as H7 by (vm_compute; reflexivity).
  assert (gen_level s2_array !! "city" = Some 0%Z) as H8
    by (vm_compute; reflexivity).
  assert (exhausted apply_hierarchy_spec Hospital.table2 "city"
    ["Kerala"; "Kerala"; "Delhi"; "Delhi"] Hospital.city_hierarchy 0) as H9
    by (left; vm_compute; reflexivity).
  split_and!; [exact H1|exact H2|reflexivity|exact H4|exact H5|exact H6
              |exact H7|exact H8|exact H9|].
  exact (ndarray_removal_raises oracle_spread apply_hierarchy_spec
           Hospital.quasi_ident "disease" 0%Q Hospital.hierarchies
           _ _ _ _ _ _ _ _ 0 H1 H2 eq_refl H4 H5 H6 H7 H8 H9).
Defined.

Lemma one_oracle_call_per_attempt_witness :
  nsteps (step oracle_spread apply_hierarchy_spec Hospital.quasi_ident "disease" 0%Q Hospital.hierarchies) 4
    ((Hospital.entry PyList 0%Q).1, (Hospital.entry PyList 0%Q).2)
    ((Hospital.pass PyList 0%Q 4).1, (Hospital.pass PyList 0%Q 4).2) ∧
  oracle_calls (log (Hospital.pass PyList 0%Q 4).2)
    = oracle_calls (log (Hospital.entry PyList 0%Q).2) + 4 ∧
  length (applied (log (Hospital.pass PyList 0%Q 4).2))
    = length (applied (log (Hospital.entry PyList 0%Q).2)) + 4.
Proof.
  split; [exact hospital_nsteps_4|].
  exact (proj1 (one_oracle_call_per_attempt oracle_spread enforcer_identity
                  apply_hierarchy_spec Hospital.quasi_ident "disease" 0%Q
                  Hospital.hierarchies)
           4 (_, _) (_, _) hospital_nsteps_4).
Defined.

Lemma attempts_are_bounded_witness :
  fails_beyond_top apply_hierarchy_spec Hospital.hierarchies ∧
  Qlt_bool 0 0 || Qgt_bool 0 1 = false ∧
  enforcer_identity Hospital.data Hospital.ident Hospital.quasi_ident 2 0%Q
    Hospital.hierarchies
    (mkWorld (frames (Hospital.start PyList)) (seqs (Hospital.start PyList))
             (log (Hospital.start PyList) ++ [EKAnon]))
  = (Ok (2%positive, 0%Z, (λ _, 0%Z) <$> Hospital.hierarchies),
     Hospital.enforced PyList) ∧
  seqs (Hospital.enforced PyList) !! Hospital.quasi_ident
    = Some (mkSeq PyList ["age"; "city"]) ∧
  Hospital.run PyList 0%Q 10
    = Some (Ok 3%positive, Hospital.final_world PyList 0%Q 10) ∧
  length (applied (log (Hospital.final_world PyList 0%Q 10)))
  ≤ length (applied (log (Hospital.enforced PyList)))
    + length (items (mkSeq PyList ["age"; "city"]))
    + sum_list ((λ qh, room ((λ _, 0%Z) <$> Hospital.hierarchies) qh.1 qh.2)
                  <$> map_to_list Hospital.hierarchies).
Proof.
  pose proof (apply_hierarchy_spec_bounded Hospital.hierarchies) as Htop.
  assert (seqs (Hospital.enforced PyList) !! Hospital.quasi_ident
    = Some (mkSeq PyList ["age"; "city"])) as H3 by (vm_compute; reflexivity).
  assert (Hospital.run PyList 0%Q 10
    = Some (Ok 3%positive, Hospital.final_world PyList 0%Q 10)) as H4
    by (vm_compute; reflexivity).
  split_and!; [exact Htop|reflexivity|exact hospital_enforcer|exact H3
              |exact H4|].
  exact (proj2 (attempts_are_bounded oracle_spread enforcer_identity
                  apply_hierarchy_spec Hospital.quasi_ident "disease" 0%Q
                  Hospital.hierarchies Htop)
           _ _ _ _ _ _ _ _ _ _ _ _ _ eq_refl hospital_enforcer H3 H4).
Defined.

Lemma levels_stay_in_range_witness :
  rtc (step oracle_spread apply_hierarchy_spec Hospital.quasi_ident "disease" 0%Q Hospital.hierarchies)
    ((Hospital.entry PyList 0%Q).1, (Hospital.entry PyList 0%Q).2)
    ((Hospital.pass PyList 0%Q 4).1, (Hospital.pass PyList 0%Q 4).2) ∧
  fails_beyond_top apply_hierarchy_spec Hospital.hierarchies ∧
  levels_in_range Hospital.hierarchies
    (gen_level (Hospital.entry PyList 0%Q).1) ∧
  dom (gen_level (Hospital.pass PyList 0%Q 4).1)
    = dom (gen_level (Hospital.entry PyList 0%Q).1) ∧
  levels_in_range Hospital.hierarchies
    (gen_level (Hospital.pass PyList 0%Q 4).1).
Proof.
  pose proof (apply_hierarchy_spec_bounded Hospital.hierarchies) as Htop.
  destruct (levels_stay_in_range oracle_spread apply_hierarchy_spec
              Hospital.quasi_ident "disease" 0%Q Hospital.hierarchies
              (_, _) (_, _) hospital_reach_4) as [Hdom Hrange].
  split_and!; [exact hospital_reach_4|exact Htop|exact hospital_levels_in_range
              |exact Hdom|exact (Hrange Htop hospital_levels_in_range)].
Defined.

Lemma pass_generalizes_or_prunes_witness :
  step oracle_spread apply_hierarchy_spec Hospital.quasi_ident "disease" 0%Q Hospital.hierarchies
    ((Hospital.entry PyList 0%Q).1, (Hospital.entry PyList 0%Q).2)
    (Hospital.s1, Hospital.w1) ∧
  ((∃ q dk col h lvl g dk',
      select dk (candidates (Hospital.entry PyList 0%Q).1
                   (Hospital.entry PyList 0%Q).2) = Ok q ∧
      frames (Hospital.entry PyList 0%Q).2
        !! data_kanon (Hospital.entry PyList 0%Q).1 = Some dk ∧
      columns dk !! q = Some col ∧
      Hospital.hierarchies !! q = Some h ∧
      gen_level (Hospital.entry PyList 0%Q).1 !! q = Some lvl ∧
      apply_hierarchy_spec col h (lvl + 1) = Ok g ∧
      length g = nrows dk ∧
      dk' = mkFrame (nrows dk) (<[q := g]> (columns dk)) ∧
      frames Hospital.w1
      = <[data_kanon (Hospital.entry PyList 0%Q).1 := dk']>
          (frames (Hospital.entry PyList 0%Q).2) ∧
      gen_level Hospital.s1
      = <[q := (lvl + 1)%Z]> (gen_level (Hospital.entry PyList 0%Q).1) ∧
      seqs Hospital.w1 = seqs (Hospital.entry PyList 0%Q).2) ∨
   (∃ q dk cand,
      select dk (items cand) = Ok q ∧
      frames (Hospital.entry PyList 0%Q).2
        !! data_kanon (Hospital.entry PyList 0%Q).1 = Some dk ∧
      seqs (Hospital.entry PyList 0%Q).2
        !! quasi_ident_gen (Hospital.entry PyList 0%Q).1 = Some cand ∧
      seqs Hospital.w1
      = <[quasi_ident_gen (Hospital.entry PyList 0%Q).1
          := mkSeq PyList (remove_first q (items cand))]>
          (seqs (Hospital.entry PyList 0%Q).2) ∧
      frames Hospital.w1 = frames (Hospital.entry PyList 0%Q).2 ∧
      gen_level Hospital.s1 = gen_level (Hospital.entry PyList 0%Q).1)).
Proof.
  split; [exact hospital_step_0|].
  exact (pass_generalizes_or_prunes oracle_spread apply_hierarchy_spec
           Hospital.quasi_ident "disease" 0%Q Hospital.hierarchies
           (_, _) (_, _) hospital_step_0).
Defined.



Lemma table_is_kept_on_every_path_witness :
  Qlt_bool 0 0 || Qgt_bool 0 1 = false ∧
  enforcer_identity Hospital.data Hospital.ident Hospital.quasi_ident 2 0%Q
    Hospital.hierarchies
    (mkWorld (frames (Hospital.start NdArray)) (seqs (Hospital.start NdArray))
             (log (Hospital.start NdArray) ++ [EKAnon]))
  = (Ok (2%positive, 0%Z, (λ _, 0%Z) <$> Hospital.hierarchies),
     Hospital.enforced NdArray) ∧
  frames (Hospital.enforced NdArray) !! 2%positive = Some Hospital.table ∧
  seqs (Hospital.enforced NdArray) !! Hospital.quasi_ident
    = Some (mkSeq NdArray ["age"; "city"]) ∧
  Hospital.run NdArray 0%Q 10
    = Some (Raise AttributeError, Hospital.final_world NdArray 0%Q 10) ∧
  ∃ df,
    frames (Hospital.final_world NdArray 0%Q 10) !! 2%positive = Some df ∧
    nrows df = nrows Hospital.table ∧
    dom (columns df) = dom (columns Hospital.table) ∧
    (∀ c, c ∉ items (mkSeq NdArray ["age"; "city"]) →
          columns df !! c = columns Hospital.table !! c) ∧
    ((∀ c col, columns Hospital.table !! c = Some col →
               length col = nrows Hospital.table) →
     ∀ c col, columns df !! c = Some col → length col = nrows df).
Proof.
  assert (enforcer_identity Hospital.data Hospital.ident Hospital.quasi_ident
    2 0%Q Hospital.hierarchies
    (mkWorld (frames (Hospital.start NdArray)) (seqs (Hospital.start NdArray))
             (log (Hospital.start NdArray) ++ [EKAnon]))
    = (Ok (2%positive, 0%Z, (λ _, 0%Z) <$> Hospital.hierarchies),
       Hospital.enforced NdArray)) as H2 by (vm_compute; reflexivity).
  assert (frames (Hospital.enforced NdArray) !! 2%positive
    = Some Hospital.table) as H3 by (vm_compute; reflexivity).
  assert (seqs (Hospital.enforced NdArray) !! Hospital.quasi_ident
    = Some (mkSeq NdArray ["age"; "city"])) as H4 by (vm_compute; reflexivity).
  assert (Hospital.run NdArray 0%Q 10
    = Some (Raise AttributeError, Hospital.final_world NdArray 0%Q 10)) as H5
    by (vm_compute; reflexivity).
  split_and!; [reflexivity|exact H2|exact H3|exact H4|exact H5|].
  exact (table_is_kept_on_every_path oracle_spread enforcer_identity
           apply_hierarchy_spec Hospital.quasi_ident "disease" 0%Q
           Hospital.hierarchies _ _ _ _ _ _ _ _ _ _ _ _ _ _
           eq_refl H2 H3 H4 H5).
Defined.
